(** * The chat relay of [server.py]: registry, history and fan-out

    A shallow embedding of [handle_connection] (server.py, lines 40-129)
    together with the two process-wide globals it works on,
    [connected_clients] and [chat_history], and the properties of the
    relay that follow from it.

    The server runs on one asyncio event loop.  A coroutine only gives up
    control at an [await]; everything between two awaits is one atomic
    block.  [handle_connection] has three such points: the [await] of the
    history send (line 69), the [async for] waiting for the next frame
    (line 76) and the [await] of [asyncio.gather] (line 116).  The model
    has one program counter per connection and one transition per atomic
    block; the scheduler and the network pick the transition. *)

From stdpp Require Import gmap strings list.

Set Warnings "-register-all,-clear-no-such-hyp".

Open Scope Z_scope.
Open Scope nat_scope.

(** ** Python values and exceptions *)

Module Py.

(** What [json.loads] can return: dict, list, str, int, float, bool, None.
    A dict keeps its keys in insertion order, each key once. *)
Inductive json : Type :=
| JNull
| JBool (b : bool)
| JInt (n : Z)
| JFloat (repr : string)
| JStr (s : string)
| JArr (items : list json)
| JObj (fields : list (string * json)).

(** The exceptions that occur in [handle_connection].  All but
    [CancelledError] derive from [Exception]. *)
Inductive exn : Type :=
| JSONDecodeError
| UnicodeDecodeError
| ValueError
| RecursionError
| TypeError
| KeyError
| ConnectionClosed
| CancelledError.

(** [except Exception] catches [e]. *)
Definition is_Exception (e : exn) : bool :=
  match e with
  | CancelledError => false
  | _ => true
  end.

Inductive result (A : Type) : Type :=
| Ok (a : A)
| Raise (e : exn).
Arguments Ok {A} a.
Arguments Raise {A} e.

#[export] Instance result_ret : MRet result := fun A a => Ok a.
#[export] Instance result_bind : MBind result := fun A B f r =>
  match r with
  | Ok a => f a
  | Raise e => Raise e
  end.

(** [needle in hay] on two [str]: substring test. *)
Fixpoint str_contains (needle hay : string) : bool :=
  String.prefix needle hay ||
  match hay with
  | EmptyString => false
  | String _ hay' => str_contains needle hay'
  end.

(** [key == v] for a [str] key: only an equal [str] compares equal. *)
Definition eq_str (key : string) (v : json) : bool :=
  match v with
  | JStr s => String.eqb key s
  | _ => false
  end.

Definition dict_get (key : string) (fields : list (string * json)) : option json :=
  snd <$> List.find (fun kv => String.eqb key (fst kv)) fields.

(** [key in data] (line 81).  Key membership on a dict, element membership
    on a list, substring on a str; the other values are not iterable. *)
Definition contains (key : string) (data : json) : result bool :=
  match data with
  | JObj fields => Ok (if dict_get key fields is Some _ then true else false)
  | JArr items => Ok (existsb (eq_str key) items)
  | JStr s => Ok (str_contains key s)
  | JNull | JBool _ | JInt _ | JFloat _ => Raise TypeError
  end.

(** [data[key]] for a [str] key (lines 85-86). *)
Definition getitem (data : json) (key : string) : result json :=
  match data with
  | JObj fields =>
      match dict_get key fields with
      | Some v => Ok v
      | None => Raise KeyError
      end
  | _ => Raise TypeError
  end.

(** How deeply lists and dicts are nested in a value; an empty list or
    dict counts as one level, as it does for the encoder. *)
Fixpoint depth (v : json) : nat :=
  match v with
  | JArr items => S (foldr (fun item d => max (depth item) d) 0 items)
  | JObj fields =>
      S (foldr (fun field d => max (let '(_, item) := field in depth item) d)
               0 fields)
  | JNull | JBool _ | JInt _ | JFloat _ | JStr _ => 0
  end.

(** The deepest nesting [json.dumps] encodes.  The encoder recurses once
    per nested list or dict and raises [RecursionError] when the
    interpreter's recursion limit is reached; this is the level it
    reaches under CPython's default limit of 1000.  Another limit or
    interpreter moves the number, not the failure. *)
Definition nesting_limit : nat := 994.

(** [json.dumps(obj)].  The text it returns is represented by the value
    it encodes.  A value that [json.loads] returned has no other way to
    fail: all its keys are [str] and [allow_nan] is on. *)
Definition json_dumps (obj : json) : result json :=
  if decide (depth obj ≤ nesting_limit) then Ok obj else Raise RecursionError.

End Py.
Import Py.

(** ** The server *)

Module Chat.

(** A websocket object; [connected_clients] holds them by identity. *)
Abbreviation handle := nat.

(** A received frame, as [json.loads] sees it (line 79): it decodes to a
    value, is not JSON, is (bytes) not valid UTF-8, is JSON nested deeper
    than the decoder recurses, or is JSON with an integer literal longer
    than [int] converts (4300 digits). *)
Inductive frame : Type :=
| Decodes (data : json)
| NotJSON
| NotUnicode
| TooDeep
| IntegerTooLong.

Definition json_loads (message : frame) : result json :=
  match message with
  | Decodes data => Ok data
  | NotJSON => Raise JSONDecodeError
  | NotUnicode => Raise UnicodeDecodeError
  | TooDeep => Raise RecursionError
  | IntegerTooLong => Raise ValueError
  end.

(** How one call of [client.send(payload)] goes: the payload is written,
    the call itself raises, or the returned awaitable raises. *)
Inductive send_outcome : Type :=
| Delivered
| RaisesOnCall
| RaisesOnAwait.

#[export] Instance send_outcome_eq_dec : EqDecision send_outcome.
Proof. solve_decision. Defined.

(** One call of [send]; the payload is the value given to [json.dumps]. *)
Record sent : Type := Sent {
  to : handle;
  payload : json;
  outcome : send_outcome
}.

(** The warnings and errors the handler logs (info and debug lines are
    left out). *)
Inductive log_line : Type :=
| ErrorPreparingBroadcast            (* line 113 *)
| WarningMissingFields (data : json) (* line 119 *)
| ErrorInvalidJSON                   (* line 121 *)
| ErrorProcessing (e : exn)          (* line 123 *)
| ErrorUnexpected (e : exn).         (* line 125 *)

(** Where the coroutine of one connection stands. *)
Inductive pc : Type :=
| AwaitHistorySend (r : option exn) (* line 69; [r] is how the send ends *)
| AwaitMessage                      (* line 76 *)
| AwaitGather (r : option exn)      (* line 116; [r] is what gather raises *)
| Returned                          (* left through [finally] *)
| Failed (e : exn).                 (* left with [e] propagating *)

(** The coroutine waits at one of its three awaits. *)
Definition suspended (p : pc) : bool :=
  match p with
  | AwaitHistorySend _ | AwaitMessage | AwaitGather _ => true
  | Returned | Failed _ => false
  end.

Record server : Type := Server {
  connected_clients : gset handle;   (* line 37 *)
  chat_history : list json;          (* line 38 *)
  tasks : gmap handle pc;            (* one [handle_connection] per websocket *)
  wire : list sent;                  (* the calls of [send], oldest first *)
  log : list log_line
}.

(** State at startup. *)
Definition initial : server := Server ∅ [] ∅ [] [].

(** The coroutine of [ws] moves to [p]. *)
Definition set_pc (ws : handle) (p : pc) (st : server) : server :=
  Server (connected_clients st) (chat_history st) (<[ws := p]> (tasks st))
         (wire st) (log st).

(** [logger.warning] and [logger.error]. *)
Definition logging (l : log_line) (st : server) : server :=
  Server (connected_clients st) (chat_history st) (tasks st)
         (wire st) (log st ++ [l]).

(** A call of [send] is recorded when it is known how it ends: at the call
    if the call raises, when its awaitable is awaited otherwise. *)
Definition sending (s : list sent) (st : server) : server :=
  Server (connected_clients st) (chat_history st) (tasks st)
         (wire st ++ s) (log st).

(** [set.remove]: raises [KeyError] when the element is absent. *)
Definition set_remove (s : gset handle) (ws : handle) : result (gset handle) :=
  if decide (ws ∈ s) then Ok (s ∖ {[ws]}) else Raise KeyError.

(** Lines 124-129: the outer [except Exception] and the [finally].
    [pending] is the exception that ended the [try] block, if any. *)
Definition leave (ws : handle) (pending : option exn) (st : server) : server :=
  let '(st, pending) :=
    match pending with
    | Some e => if is_Exception e then (logging (ErrorUnexpected e) st, None)
                else (st, Some e)
    | None => (st, None)
    end in
  match set_remove (connected_clients st) ws with
  | Ok clients =>
      Server clients (chat_history st)
             (<[ws := match pending with None => Returned | Some e => Failed e end]>
                (tasks st))
             (wire st) (log st)
  | Raise e => set_pc ws (Failed e) st
  end.

(** Lines 65-68 and 102-105: the two payloads, before [json.dumps]. *)
Definition history_payload (messages : list json) : json :=
  JObj [("type", JStr "history"); ("messages", JArr messages)].

Definition message_payload (message_obj : json) : json :=
  JObj [("type", JStr "message"); ("message", message_obj)].

(** Lines 54-72: register, then send the history if there is any.  There
    is no [await] between line 58 and the call of [send] in line 69.  An
    exception of [json.dumps] (line 65) goes to line 124, like one of the
    send. *)
Definition accept (ws : handle) (out : send_outcome) (st : server) : server :=
  let st := Server ({[ws]} ∪ connected_clients st) (chat_history st)
                   (tasks st) (wire st) (log st) in
  match chat_history st with
  | [] => set_pc ws AwaitMessage st
  | _ :: _ =>
      match json_dumps (history_payload (chat_history st)) with
      | Raise e => leave ws (Some e) st
      | Ok history_json =>
          let st := sending [Sent ws history_json out] st in
          match out with
          | Delivered => set_pc ws (AwaitHistorySend None) st
          | RaisesOnAwait =>
              set_pc ws (AwaitHistorySend (Some ConnectionClosed)) st
          | RaisesOnCall => leave ws (Some ConnectionClosed) st
          end
      end
  end.

(** Line 81: [and] evaluates its right operand only if the left is true. *)
Definition has_fields (data : json) : result bool :=
  a ← contains "text" data;
  if a : bool then contains "sender" data else Ok false.

(** Lines 83-88. *)
Definition make_message_obj (data : json) (timestamp : string) : result json :=
  text ← getitem data "text";
  sender ← getitem data "sender";
  Ok (JObj [("text", text); ("sender", sender); ("timestamp", JStr timestamp)]).

(** Lines 93-98: append, then drop the oldest entry above 100. *)
Definition append_history (history : list json) (message_obj : json) : list json :=
  let history := history ++ [message_obj] in
  if decide (100 < length history) then drop 1 history else history.

(** Lines 108-113: one [send] call per client; a call that raises is
    logged and contributes no awaitable. *)
Definition call_sends (clients : list handle) (message_json : json)
    (outs : handle → send_outcome) : list sent :=
  (fun client => Sent client message_json (outs client)) <$> clients.

(** The awaitables collected in [broadcast_tasks] (line 111). *)
Definition broadcast_tasks (calls : list sent) : list sent :=
  filter (fun s => outcome s ≠ RaisesOnCall) calls.

(** The calls that raised, caught at line 112. *)
Definition raised_calls (calls : list sent) : list sent :=
  filter (fun s => outcome s = RaisesOnCall) calls.

(** One line 113 per call that raised. *)
Definition prepare_errors (calls : list sent) : list log_line :=
  (fun _ => ErrorPreparingBroadcast) <$> raised_calls calls.

(** What [asyncio.gather] raises into the awaiting handler: the exception
    of an awaitable that fails, if one does.  [gather] wraps every
    awaitable in a task of its own before any of them runs and, without
    [return_exceptions], does not cancel the others when one fails: how
    each send goes is its own [send_outcome]. *)
Definition gather (tasks : list sent) : option exn :=
  if existsb (fun s => bool_decide (outcome s = RaisesOnAwait)) tasks
  then Some ConnectionClosed else None.

(** What lines 79-88 compute before anything is changed: the message
    object, or nothing when a required field is missing. *)
Definition parse (message : frame) (timestamp : string) : result (json + json) :=
  data ← json_loads message;
  ok ← has_fields data;
  if ok : bool then
    message_obj ← make_message_obj data timestamp; Ok (inl message_obj)
  else Ok (inr data).

(** Lines 120-123, and what an exception neither clause catches does. *)
Definition inner_except (ws : handle) (e : exn) (st : server) : server :=
  match e with
  | JSONDecodeError => logging ErrorInvalidJSON st
  | _ => if is_Exception e then logging (ErrorProcessing e) st
         else leave ws (Some e) st
  end.

(** Lines 92-116 up to the [await].  The message is in the history (line
    93) before [json.dumps] runs (line 102): an exception of [json.dumps]
    goes to line 122 with the message stored and nothing sent.  The
    awaitables are awaited by [gather] only, and only if there is one
    (line 115). *)
Definition broadcast (ws : handle) (message_obj : json)
    (outs : handle → send_outcome) (st : server) : server :=
  let st := Server (connected_clients st)
                   (append_history (chat_history st) message_obj)
                   (tasks st) (wire st) (log st) in
  match json_dumps (message_payload message_obj) with
  | Raise e => inner_except ws e st
  | Ok message_json =>
      let calls := call_sends (elements (connected_clients st))
                              message_json outs in
      let st := Server (connected_clients st) (chat_history st) (tasks st)
                       (wire st ++ raised_calls calls)
                       (log st ++ prepare_errors calls) in
      let aws := broadcast_tasks calls in
      match aws with
      | [] => st
      | _ :: _ => set_pc ws (AwaitGather (gather aws)) (sending aws st)
      end
  end.

(** Lines 77-123 for one frame, up to the [await] of line 116. *)
Definition on_message (ws : handle) (message : frame) (timestamp : string)
    (outs : handle → send_outcome) (st : server) : server :=
  match parse message timestamp with
  | Ok (inl message_obj) => broadcast ws message_obj outs st
  | Ok (inr data) => logging (WarningMissingFields data) st
  | Raise e => inner_except ws e st
  end.

(** The coroutine is resumed from the [await] of a send. *)
Definition resume (ws : handle) (p : pc) (st : server) : option server :=
  match p with
  | AwaitHistorySend None => Some (set_pc ws AwaitMessage st)
  | AwaitHistorySend (Some e) => Some (leave ws (Some e) st)
  | AwaitGather None => Some (set_pc ws AwaitMessage st)
  | AwaitGather (Some e) => Some (inner_except ws e (set_pc ws AwaitMessage st))
  | _ => None
  end.

(** What the event loop and the network can do next. *)
Inductive event : Type :=
| Accept (ws : handle) (out : send_outcome)
| Receive (ws : handle) (message : frame) (timestamp : string)
          (outs : handle → send_outcome)
| Resume (ws : handle)
| Close (ws : handle) (e : option exn)
| Cancel (ws : handle).

(** One atomic block.  [None]: the event cannot happen in this state. *)
Definition step (st : server) (ev : event) : option server :=
  match ev with
  | Accept ws out =>
      match tasks st !! ws with
      | None => Some (accept ws out st)
      | Some _ => None
      end
  | Receive ws message timestamp outs =>
      match tasks st !! ws with
      | Some AwaitMessage => Some (on_message ws message timestamp outs st)
      | _ => None
      end
  | Resume ws =>
      match tasks st !! ws with
      | Some p => resume ws p st
      | None => None
      end
  | Close ws e =>
      match tasks st !! ws with
      | Some AwaitMessage => Some (leave ws e st)
      | _ => None
      end
  | Cancel ws =>
      match tasks st !! ws with
      | Some p => if suspended p then Some (leave ws (Some CancelledError) st)
                  else None
      | None => None
      end
  end.

(** A run: the events of [trace] one after the other. *)
Fixpoint run (st : server) (trace : list event) : option server :=
  match trace with
  | [] => Some st
  | ev :: trace =>
      match step st ev with
      | Some st => run st trace
      | None => None
      end
  end.

End Chat.
Import Chat.

(** ** Scenarios used as concrete inputs *)

Module Scenario.

(** The payload [{"text": i, "sender": "A"}]. *)
Definition hello (i : nat) : json :=
  JObj [("text", JInt (Z.of_nat i)); ("sender", JStr "A")].

(** The message object the server makes of [hello i] at noon. *)
Definition stamped (i : nat) : json :=
  JObj [("text", JInt (Z.of_nat i)); ("sender", JStr "A");
        ("timestamp", JStr "2025-04-01T12:00:00")].

(** Every send succeeds. *)
Definition all_delivered : handle → send_outcome := fun _ => Delivered.

(** A string inside [n] nested lists: [[[... "x" ...]]]. *)
Definition nested (n : nat) : json := Nat.iter n (fun v => JArr [v]) (JStr "x").

(** The payload [{"text": nested n, "sender": "A"}], which [json.loads]
    decodes for [n = 993] and which has both required keys. *)
Definition deep (n : nat) : json :=
  JObj [("text", nested n); ("sender", JStr "A")].

(** Client 1 sends the messages [first .. first + n - 1]; each broadcast
    completes before the next frame is read. *)
Definition says (first n : nat) : list event :=
  flat_map (fun i =>
              [Receive 1 (Decodes (hello i)) "2025-04-01T12:00:00" all_delivered;
               Resume 1])
           (seq first n).

(** Client 1 connects to the fresh server and sends [n] messages. *)
Definition one_client (n : nat) : list event :=
  Accept 1 Delivered :: says 1 n.

End Scenario.

(** ** Observations on states and runs, used to state the properties *)

(** The message object a step appends to the history, if it appends one. *)
Definition appended (ev : event) : option json :=
  match ev with
  | Receive _ message timestamp _ =>
      match parse message timestamp with
      | Ok (inl message_obj) => Some message_obj
      | _ => None
      end
  | _ => None
  end.

(** The messages a run processes, in processing order. *)
Definition processed (trace : list event) : list json := omap appended trace.

(** The last [n] elements of [l], in the order of [l]. *)
Definition most_recent {A} (n : nat) (l : list A) : list A :=
  drop (length l - n) l.

(** The coroutine of [ws] has started and has not yet left its [finally]. *)
Definition is_live (st : server) (ws : handle) : bool :=
  match tasks st !! ws with
  | Some p => suspended p
  | None => false
  end.

(** The new entries a step puts on the wire. *)
Definition new_sends (st st' : server) : list sent :=
  drop (length (wire st)) (wire st').

(** What holds of every state the server can reach: the registry is the
    set of live handlers, no handler has died of the [KeyError] of line
    128, and [send] was only ever called on handles that have a handler. *)
Record consistent (st : server) : Prop := Consistent {
  registered_live : ∀ ws, ws ∈ connected_clients st ↔ is_live st ws = true;
  no_KeyError : ∀ ws, tasks st !! ws ≠ Some (Failed KeyError);
  wire_known : ∀ s, s ∈ wire st → is_Some (tasks st !! to s)
}.

(** The frame decodes to an object that has both keys. *)
Definition accepted (message : frame) : bool :=
  match message with
  | Decodes (JObj fields) =>
      (if dict_get "text" fields is Some _ then true else false) &&
      (if dict_get "sender" fields is Some _ then true else false)
  | _ => false
  end.

(** [data] is an object with the key [key]. *)
Definition has_field (key : string) (data : json) : bool :=
  match data with
  | JObj fields => if dict_get key fields is Some _ then true else false
  | _ => false
  end.

(** The frame has the shape [{"text": str, "sender": str}]. *)
Definition text_and_sender_strings (message : frame) : bool :=
  match message with
  | Decodes (JObj fields) =>
      match dict_get "text" fields, dict_get "sender" fields with
      | Some (JStr _), Some (JStr _) => true
      | _, _ => false
      end
  | _ => false
  end.

(** [data] is a JSON object (a dict). *)
Definition is_object (data : json) : bool :=
  match data with
  | JObj _ => true
  | _ => false
  end.

(** The frame does not parse, or parses to a value that lacks one of the
    two required fields. *)
Definition fails_or_lacks_field (message : frame) : bool :=
  match message with
  | Decodes data => negb (has_field "text" data) || negb (has_field "sender" data)
  | NotJSON | NotUnicode | TooDeep | IntegerTooLong => true
  end.

(** The calls of [send] on [client] among [w]. *)
Definition sends_to (client : handle) (w : list sent) : list sent :=
  filter (fun s => to s = client) w.

(** What [client] received among the calls [w]. *)
Definition delivered_to (client : handle) (w : list sent) : list json :=
  payload <$> filter (fun s => outcome s = Delivered) (sends_to client w).

(** What a joining client is sent at once: the history, if there is any
    and [json.dumps] encodes it. *)
Definition joining_sends (ws : handle) (out : send_outcome) (history : list json)
    : list sent :=
  match history with
  | [] => []
  | _ :: _ =>
      match json_dumps (history_payload history) with
      | Ok history_json => [Sent ws history_json out]
      | Raise _ => []
      end
  end.

(** The calls of [send] that the broadcast of a message records: those
    that raised, then those that [gather] awaited; none if [json.dumps]
    does not encode the payload. *)
Definition live_sends (clients : gset handle) (message_obj : json)
    (outs : handle → send_outcome) : list sent :=
  match json_dumps (message_payload message_obj) with
  | Ok message_json =>
      let calls := call_sends (elements clients) message_json outs in
      raised_calls calls ++ broadcast_tasks calls
  | Raise _ => []
  end.

(** [json.dumps] encodes the live payload of the message. *)
Definition broadcastable (message_obj : json) : bool :=
  match json_dumps (message_payload message_obj) with
  | Ok _ => true
  | Raise _ => false
  end.

(** ** Graceful shutdown *)

Module Lifecycle.

(** How one call of [client.close()] goes (line 162): the awaitable it
    returns completes, the call itself raises, or the awaitable raises. *)
Inductive close_outcome : Type :=
| CloseReturns
| CloseRaisesOnCall (e : exn)
| CloseRaisesOnAwait (e : exn).

(** What one activation of [shutdown] (lines 145-167) does: the websockets
    it calls [close] on, in the order of the calls; the result list of
    [asyncio.gather(..., return_exceptions=True)], which holds the
    exception of an awaitable as an ordinary result instead of raising
    it; the exception that ends [shutdown], if one does; and whether line
    167 was reached. *)
Record shutdown_run : Type := ShutdownRun {
  close_calls : list handle;
  gathered : list close_outcome;
  raised : option exn;
  loop_stopped : bool
}.

(** The comprehension of line 162: nothing catches a call that raises, so
    it ends the comprehension, and [shutdown], there. *)
Fixpoint call_closes (clients : list handle) (closes : handle → close_outcome)
    : list handle * option exn :=
  match clients with
  | [] => ([], None)
  | client :: clients =>
      match closes client with
      | CloseRaisesOnCall e => ([client], Some e)
      | CloseReturns | CloseRaisesOnAwait _ =>
          let '(calls, r) := call_closes clients closes in (client :: calls, r)
      end
  end.

(** Lines 160-167.  The registry is read, never written: line 160 tests
    it, line 162 iterates over it, with no [await] inside the
    comprehension. *)
Definition shutdown (st : server) (closes : handle → close_outcome) : shutdown_run :=
  if decide (connected_clients st = ∅) then ShutdownRun [] [] None true
  else
    match call_closes (elements (connected_clients st)) closes with
    | (calls, Some e) => ShutdownRun calls [] (Some e) false
    | (calls, None) => ShutdownRun calls (closes <$> calls) None true
    end.

End Lifecycle.

(** ** Further observations *)

(** The connection whose handler an event runs. *)
Definition subject (ev : event) : handle :=
  match ev with
  | Accept ws _ | Receive ws _ _ _ | Resume ws | Close ws _ | Cancel ws => ws
  end.

(** The calls of [send] a step makes. *)
Definition step_sends (st : server) (ev : event) : list sent :=
  match ev with
  | Accept ws out => joining_sends ws out (chat_history st)
  | Receive _ _ _ outs =>
      match appended ev with
      | Some message_obj => live_sends (connected_clients st) message_obj outs
      | None => []
      end
  | Resume _ | Close _ _ | Cancel _ => []
  end.

(** [ws] is registered in every state the run goes through. *)
Fixpoint stays_registered (ws : handle) (st : server) (trace : list event) : bool :=
  bool_decide (ws ∈ connected_clients st) &&
  match trace with
  | [] => true
  | ev :: trace =>
      match step st ev with
      | Some st => stays_registered ws st trace
      | None => true
      end
  end.

(** An exception waiting at an [await] is one [except Exception] catches;
    a handler that ended with an exception ended with one it does not. *)
Definition contained (p : pc) : bool :=
  match p with
  | AwaitHistorySend (Some e) | AwaitGather (Some e) => is_Exception e
  | Failed e => negb (is_Exception e)
  | AwaitHistorySend None | AwaitMessage | AwaitGather None | Returned => true
  end.

(** What a block run for [ws] leaves alone: the program counter and the
    registration of every other handle. *)
Definition same_for_others (ws : handle) (st st' : server) : Prop :=
  ∀ ws', ws' ≠ ws →
    tasks st' !! ws' = tasks st !! ws' ∧
    (ws' ∈ connected_clients st' ↔ ws' ∈ connected_clients st).

(** Every handler of the state is [contained]. *)
Definition all_contained (st : server) : Prop :=
  ∀ ws p, tasks st !! ws = Some p → contained p = true.

(** The event cancels a handler: [CancelledError] is thrown into it. *)
Definition cancels (ev : event) : bool :=
  match ev with
  | Cancel _ | Close _ (Some CancelledError) => true
  | _ => false
  end.

(** The handler of [ws] has run and has left. *)
Definition has_left (st : server) (ws : handle) : bool :=
  match tasks st !! ws with
  | Some p => negb (suspended p)
  | None => false
  end.

(** ** What each block does to the globals *)

Section Effects.

Implicit Types (st : server) (ws : handle) (e : exn) (p : pc).

(** The atomic block an event runs, and what enables it. *)
Lemma step_cases st ev st' :
  step st ev = Some st' →
  match ev with
  | Accept ws out => tasks st !! ws = None ∧ st' = accept ws out st
  | Receive ws message timestamp outs =>
      tasks st !! ws = Some AwaitMessage ∧
      st' = on_message ws message timestamp outs st
  | Resume ws => ∃ p, tasks st !! ws = Some p ∧ resume ws p st = Some st'
  | Close ws e => tasks st !! ws = Some AwaitMessage ∧ st' = leave ws e st
  | Cancel ws =>
      ∃ p, tasks st !! ws = Some p ∧ suspended p = true ∧
           st' = leave ws (Some CancelledError) st
  end.
Proof.
  destruct ev as [ws out|ws message timestamp outs|ws|ws e|ws]; simpl;
    destruct (tasks st !! ws) as [p|]; try discriminate.
  - by intros [= <-].
  - destruct p; try discriminate. by intros [= <-].
  - eauto.
  - destruct p; try discriminate. by intros [= <-].
  - destruct (suspended p) eqn:Hp; [|discriminate]. intros [= <-]. eauto.
Qed.

Lemma leave_history ws pending st :
  chat_history (leave ws pending st) = chat_history st.
Proof.
  unfold leave, set_remove, set_pc, logging.
  destruct pending as [e|]; [destruct (is_Exception e)|]; simpl;
    case_decide; reflexivity.
Qed.

Lemma leave_wire ws pending st : wire (leave ws pending st) = wire st.
Proof.
  unfold leave, set_remove, set_pc, logging.
  destruct pending as [e|]; [destruct (is_Exception e)|]; simpl;
    case_decide; reflexivity.
Qed.

Lemma inner_except_history ws e st :
  chat_history (inner_except ws e st) = chat_history st.
Proof.
  unfold inner_except.
  destruct e; simpl; rewrite ?leave_history; reflexivity.
Qed.

Lemma inner_except_wire ws e st : wire (inner_except ws e st) = wire st.
Proof.
  unfold inner_except.
  destruct e; simpl; rewrite ?leave_wire; reflexivity.
Qed.

Lemma inner_except_caught ws e st :
  is_Exception e = true →
  connected_clients (inner_except ws e st) = connected_clients st ∧
  tasks (inner_except ws e st) = tasks st.
Proof. destruct e; simpl; try discriminate; auto. Qed.

Lemma json_dumps_ok obj encoded : json_dumps obj = Ok encoded → encoded = obj.
Proof. unfold json_dumps. case_decide; [|discriminate]. by intros [= <-]. Qed.

Lemma json_dumps_raises obj e : json_dumps obj = Raise e → e = RecursionError.
Proof. unfold json_dumps. case_decide; [discriminate|]. by intros [= <-]. Qed.

Lemma broadcast_history ws message_obj outs st :
  chat_history (broadcast ws message_obj outs st)
  = append_history (chat_history st) message_obj.
Proof.
  unfold broadcast. destruct (json_dumps _); simpl.
  - case_match; reflexivity.
  - apply inner_except_history.
Qed.

Lemma broadcast_wire ws message_obj outs st :
  wire (broadcast ws message_obj outs st)
  = wire st ++ live_sends (connected_clients st) message_obj outs.
Proof.
  unfold broadcast, live_sends. destruct (json_dumps _); simpl.
  - case_match eqn:Haws; simpl; rewrite ?Haws, ?app_nil_r, <- ?app_assoc; done.
  - by rewrite inner_except_wire, app_nil_r.
Qed.

Lemma broadcast_clients ws message_obj outs st :
  connected_clients (broadcast ws message_obj outs st) = connected_clients st.
Proof.
  unfold broadcast. destruct (json_dumps _) as [encoded|e] eqn:Hdumps; simpl.
  - case_match; reflexivity.
  - apply json_dumps_raises in Hdumps as ->. reflexivity.
Qed.

Lemma accept_history ws out st :
  chat_history (accept ws out st) = chat_history st.
Proof.
  unfold accept; simpl. destruct (chat_history st) eqn:E; simpl; [done|].
  destruct (json_dumps _); [|by rewrite leave_history].
  destruct out; simpl; rewrite ?leave_history; simpl; done.
Qed.

Lemma resume_history ws p st st' :
  resume ws p st = Some st' → chat_history st' = chat_history st.
Proof.
  destruct p as [[e|]| |[e|]| |]; simpl; intros [= <-];
    rewrite ?leave_history, ?inner_except_history; reflexivity.
Qed.

Lemma resume_wire ws p st st' :
  resume ws p st = Some st' → wire st' = wire st.
Proof.
  destruct p as [[e|]| |[e|]| |]; simpl; intros [= <-];
    rewrite ?leave_wire, ?inner_except_wire; reflexivity.
Qed.

End Effects.

Lemma step_history st ev st' :
  step st ev = Some st' →
  chat_history st' = match appended ev with
                     | Some message_obj => append_history (chat_history st) message_obj
                     | None => chat_history st
                     end.
Proof.
  intros Hstep%step_cases.
  destruct ev as [ws out|ws message timestamp outs|ws|ws e|ws]; simpl.
  - destruct Hstep as [_ ->]. apply accept_history.
  - destruct Hstep as [_ ->]. unfold on_message.
    destruct (parse message timestamp) as [[message_obj|data]|e]; simpl.
    + apply broadcast_history.
    + reflexivity.
    + apply inner_except_history.
  - destruct Hstep as (p & _ & Hresume). by apply resume_history in Hresume.
  - destruct Hstep as [_ ->]. apply leave_history.
  - destruct Hstep as (p & _ & _ & ->). apply leave_history.
Qed.

Lemma most_recent_length {A} n (l : list A) :
  length (most_recent n l) = min (length l) n.
Proof. unfold most_recent. rewrite length_drop. lia. Qed.

Lemma append_history_recent (earlier : list json) message_obj :
  append_history (most_recent 100 earlier) message_obj
  = most_recent 100 (earlier ++ [message_obj]).
Proof.
  unfold append_history.
  rewrite length_app, most_recent_length. simpl.
  unfold most_recent. rewrite length_app. simpl.
  case_decide as Hfull.
  - assert (100 ≤ length earlier) as Hlen by lia.
    rewrite (drop_app_le (drop _ earlier)) by (rewrite length_drop; lia).
    rewrite drop_drop, drop_app_le by lia.
    do 2 f_equal. lia.
  - replace (length earlier - 100) with 0 by lia.
    replace (length earlier + 1 - 100) with 0 by lia.
    reflexivity.
Qed.

Lemma run_history trace : ∀ st st' earlier,
  chat_history st = most_recent 100 earlier →
  run st trace = Some st' →
  chat_history st' = most_recent 100 (earlier ++ processed trace).
Proof.
  induction trace as [|ev trace IH]; intros st st' earlier Hst Hrun; simpl in *.
  - injection Hrun as <-. unfold processed. simpl. by rewrite app_nil_r.
  - destruct (step st ev) as [st1|] eqn:Hstep; [|discriminate].
    apply step_history in Hstep.
    unfold processed. simpl. fold (processed trace).
    destruct (appended ev) as [message_obj|].
    + rewrite (cons_middle message_obj), app_assoc.
      apply (IH st1); [|done].
      rewrite Hstep, Hst. apply append_history_recent.
    + apply (IH st1); [|done]. congruence.
Qed.

(** C1.  From the empty history of startup, along every run of the server
    the history never holds more than 100 entries, after any step of the
    run; at the end it holds the [min N 100] most recent of the [N]
    messages processed, in processing order; and after exactly 101
    processed messages it holds messages 2 to 101, the first one having
    been evicted. *)
Theorem history_holds_most_recent trace st :
  run initial trace = Some st →
  (∀ k st_k, run initial (take k trace) = Some st_k →
             length (chat_history st_k) ≤ 100) ∧
  length (chat_history st) = min (length (processed trace)) 100 ∧
  chat_history st = most_recent 100 (processed trace) ∧
  (length (processed trace) = 101 →
   chat_history st = drop 1 (processed trace)).
Proof.
  intros Hrun.
  assert (Hend : ∀ tr s, run initial tr = Some s →
                         chat_history s = most_recent 100 (processed tr)).
  { intros tr s Hs. apply (run_history tr initial s []); done. }
  split; [|split; [|split]].
  - intros k st_k Hk. rewrite (Hend _ _ Hk), most_recent_length. lia.
  - rewrite (Hend _ _ Hrun). apply most_recent_length.
  - by apply Hend.
  - intros H101. rewrite (Hend _ _ Hrun). unfold most_recent. by rewrite H101.
Qed.

Lemma history_holds_most_recent_witness :
  ∃ st, run initial (Scenario.one_client 101) = Some st ∧
        length (chat_history st) = 100 ∧
        chat_history st = Scenario.stamped <$> seq 2 100.
Proof.
  destruct (run initial (Scenario.one_client 101)) as [st|] eqn:Hrun;
    [|vm_compute in Hrun; discriminate].
  exists st. split; [reflexivity|].
  destruct (history_holds_most_recent _ _ Hrun) as (_ & Hlen & _ & H101).
  split.
  - rewrite Hlen. vm_compute. reflexivity.
  - rewrite H101; vm_compute; reflexivity.
Defined.

(** ** Invariants of the reachable states *)

Section Invariants.

Implicit Types (st : server) (ws : handle) (e : exn) (p : pc).

Lemma initial_consistent : consistent initial.
Proof.
  split; simpl.
  - intros ws. unfold is_live. simpl. rewrite lookup_empty. set_solver.
  - intros ws. by rewrite lookup_empty.
  - intros s Hs. by apply not_elem_of_nil in Hs.
Qed.

Lemma is_live_set_pc st ws p ws' :
  is_live (set_pc ws p st) ws' = if decide (ws = ws') then suspended p else is_live st ws'.
Proof.
  unfold is_live, set_pc. simpl. rewrite lookup_insert. by case_decide.
Qed.

Lemma consistent_logging l st : consistent st → consistent (logging l st).
Proof. intros [Hreg Hkey Hwire]. split; done. Qed.

Lemma consistent_set_pc ws p st :
  consistent st → is_live st ws = true → suspended p = true →
  consistent (set_pc ws p st).
Proof.
  intros [Hreg Hkey Hwire] Hlive Hp. split.
  - intros ws'. rewrite is_live_set_pc. simpl. case_decide as Heq.
    + subst ws'. rewrite Hreg. by rewrite Hlive, Hp.
    + apply Hreg.
  - intros ws'. simpl. rewrite lookup_insert. case_decide.
    + intros [= ->]. discriminate.
    + apply Hkey.
  - intros s Hs. simpl. rewrite lookup_insert. case_decide; [eauto|].
    by apply Hwire.
Qed.

(** [finally] restores the invariant for the leaving handle whatever the
    state of the others; it needs the handle registered only to rule out
    the [KeyError]. *)
Lemma consistent_leave ws pending st :
  ws ∈ connected_clients st →
  (∀ ws', ws' ≠ ws → ws' ∈ connected_clients st ↔ is_live st ws' = true) →
  (∀ ws', ws' ≠ ws → tasks st !! ws' ≠ Some (Failed KeyError)) →
  (∀ s, s ∈ wire st → to s = ws ∨ is_Some (tasks st !! to s)) →
  consistent (leave ws pending st).
Proof.
  intros Hin Hreg Hkey Hwire.
  assert (∀ q (l : list log_line),
    q ≠ Failed KeyError → suspended q = false →
    consistent (Server (connected_clients st ∖ {[ws]}) (chat_history st)
                       (<[ws := q]> (tasks st)) (wire st) l)) as Hgen.
  { intros q l Hq Hsus. split; simpl.
    - intros ws'. unfold is_live. simpl. rewrite lookup_insert.
      case_decide as Heq.
      + subst ws'. rewrite Hsus. set_solver.
      + rewrite <- (Hreg ws') by done. set_solver.
    - intros ws'. rewrite lookup_insert. case_decide; [congruence|].
      by apply Hkey.
    - intros s Hs. rewrite lookup_insert. case_decide; [eauto|].
      destruct (Hwire s Hs); [congruence|done]. }
  unfold leave, set_remove.
  destruct pending as [e|]; [destruct (is_Exception e) eqn:He|]; simpl;
    (case_decide; [|done]); apply Hgen; try done.
  intros [= ->]. discriminate.
Qed.

Lemma consistent_leave_live ws pending st :
  consistent st → is_live st ws = true → consistent (leave ws pending st).
Proof.
  intros [Hreg Hkey Hwire] Hlive. apply consistent_leave; auto.
  by apply Hreg.
Qed.

Lemma consistent_inner_except ws e st :
  consistent st → is_live st ws = true → consistent (inner_except ws e st).
Proof.
  intros Hst Hlive. unfold inner_except.
  destruct e; simpl; auto using consistent_logging, consistent_leave_live.
Qed.

Lemma consistent_accept ws out st :
  consistent st → tasks st !! ws = None → consistent (accept ws out st).
Proof.
  intros [Hreg Hkey Hwire] Hnew.
  assert (ws ∉ connected_clients st) as Hout.
  { rewrite Hreg. unfold is_live. by rewrite Hnew. }
  assert (∀ p sends, suspended p = true → (∀ s, s ∈ sends → to s = ws) →
    consistent (Server ({[ws]} ∪ connected_clients st) (chat_history st)
                       (<[ws := p]> (tasks st)) (wire st ++ sends) (log st)))
    as Hgen.
  { intros p sends Hp Hsends. split; simpl.
    - intros ws'. unfold is_live. simpl. rewrite lookup_insert.
      case_decide as Heq.
      + subst ws'. rewrite Hp. set_solver.
      + rewrite <- (Hreg ws'). set_solver.
    - intros ws'. rewrite lookup_insert. case_decide.
      + intros [= ->]. discriminate.
      + apply Hkey.
    - intros s [Hs|Hs]%elem_of_app; rewrite lookup_insert; case_decide; eauto.
      by apply Hsends in Hs. }
  assert (∀ pending sends, (∀ s, s ∈ sends → to s = ws) →
    consistent (leave ws pending
      (Server ({[ws]} ∪ connected_clients st) (chat_history st)
              (tasks st) (wire st ++ sends) (log st)))) as Hleave.
  { intros pending sends Hsends. apply consistent_leave; simpl.
    - set_solver.
    - intros ws' Hne. rewrite <- (Hreg ws'). set_solver.
    - intros ws' _. apply Hkey.
    - intros s [Hs|Hs]%elem_of_app; [right; by apply Hwire|left; by apply Hsends]. }
  unfold accept. simpl.
  destruct (chat_history st) as [|m h] eqn:Hh; simpl.
  - unfold set_pc. simpl. rewrite <- (app_nil_r (wire st)).
    apply Hgen; [done|]. intros s Hs. by apply not_elem_of_nil in Hs.
  - destruct (json_dumps _) as [history_json|e].
    + assert (∀ s, s ∈ [Sent ws history_json out] → to s = ws)
        as Hone by (intros s ->%list_elem_of_singleton; done).
      destruct out; unfold set_pc, sending; simpl; rewrite ?Hh.
      * by apply Hgen.
      * by apply Hleave.
      * by apply Hgen.
    + rewrite ?Hh. rewrite <- (app_nil_r (wire st)). apply Hleave.
      intros s Hs. by apply not_elem_of_nil in Hs.
Qed.

Lemma consistent_sent st history sends l :
  consistent st → (∀ s, s ∈ sends → to s ∈ connected_clients st) →
  consistent (Server (connected_clients st) history (tasks st)
                     (wire st ++ sends) l).
Proof.
  intros [Hreg Hkey Hwire] Hsends. split; simpl; [done..|].
  intros s [Hs|Hs]%elem_of_app; [by apply Hwire|].
  apply Hsends, Hreg in Hs. unfold is_live in Hs.
  destruct (tasks st !! to s); [eauto|discriminate].
Qed.

Lemma call_sends_payload clients message_json outs s :
  s ∈ call_sends clients message_json outs →
  payload s = message_json ∧ to s ∈ clients ∧ outcome s = outs (to s).
Proof. intros (client & -> & Hin)%list_elem_of_fmap. done. Qed.

Lemma live_sends_payload clients message_obj outs s :
  s ∈ live_sends clients message_obj outs →
  payload s = message_payload message_obj ∧ to s ∈ clients ∧
  outcome s = outs (to s).
Proof.
  unfold live_sends, raised_calls, broadcast_tasks.
  destruct (json_dumps _) as [message_json|e] eqn:Hdumps;
    [|by intros Hs%not_elem_of_nil].
  apply json_dumps_ok in Hdumps as ->.
  intros [Hs|Hs]%elem_of_app; apply list_elem_of_filter in Hs as [_ Hs];
    apply call_sends_payload in Hs as (? & ?%elem_of_elements & ?); done.
Qed.

Lemma consistent_broadcast ws message_obj outs st :
  consistent st → is_live st ws = true →
  consistent (broadcast ws message_obj outs st).
Proof.
  intros Hst Hlive.
  pose proof (broadcast_wire ws message_obj outs st) as Hwire.
  unfold broadcast in *. unfold live_sends in Hwire.
  destruct (json_dumps _) as [message_json|e] eqn:Hdumps.
  - simpl in *. set (calls := call_sends _ _ _) in *.
    assert (consistent (Server (connected_clients st)
              (append_history (chat_history st) message_obj) (tasks st)
              (wire st ++ (raised_calls calls ++ broadcast_tasks calls))
              (log st ++ prepare_errors calls))) as Hmid.
    { apply consistent_sent; [done|]. intros s Hs.
      apply (live_sends_payload _ message_obj outs). unfold live_sends.
      by rewrite Hdumps. }
    destruct (broadcast_tasks calls) as [|aw aws] eqn:Haws.
    + by rewrite app_nil_r in Hmid.
    + rewrite app_assoc in Hmid. by apply (consistent_set_pc ws _ _ Hmid).
  - apply consistent_inner_except; [|done].
    rewrite <- (app_nil_r (wire st)). apply consistent_sent; [done|].
    by intros s Hs%not_elem_of_nil.
Qed.

Lemma consistent_on_message ws message timestamp outs st :
  consistent st → is_live st ws = true →
  consistent (on_message ws message timestamp outs st).
Proof.
  intros Hst Hlive. unfold on_message.
  destruct (parse message timestamp) as [[message_obj|data]|e].
  - by apply consistent_broadcast.
  - by apply consistent_logging.
  - by apply consistent_inner_except.
Qed.

Lemma consistent_step st ev st' :
  consistent st → step st ev = Some st' → consistent st'.
Proof.
  intros Hst Hstep%step_cases.
  assert (∀ ws p, tasks st !! ws = Some p → suspended p = true →
                  is_live st ws = true) as Hlive.
  { intros ws p Hp Hsus. unfold is_live. by rewrite Hp. }
  destruct ev as [ws out|ws message timestamp outs|ws|ws e|ws].
  - destruct Hstep as [Hnew ->]. by apply consistent_accept.
  - destruct Hstep as [Hpc ->]. apply consistent_on_message; eauto.
  - destruct Hstep as (p & Hpc & Hresume).
    destruct p as [[e|]| |[e|]| |]; simpl in Hresume; try discriminate;
      injection Hresume as <-.
    + apply consistent_leave_live; eauto.
    + apply consistent_set_pc; eauto.
    + apply consistent_inner_except.
      * apply consistent_set_pc; eauto.
      * rewrite is_live_set_pc. by case_decide.
    + apply consistent_set_pc; eauto.
  - destruct Hstep as [Hpc ->]. apply consistent_leave_live; eauto.
  - destruct Hstep as (p & Hpc & Hsus & ->). apply consistent_leave_live; eauto.
Qed.

Lemma consistent_run trace : ∀ st st',
  consistent st → run st trace = Some st' → consistent st'.
Proof.
  induction trace as [|ev trace IH]; simpl; intros st st' Hst Hrun.
  - by injection Hrun as <-.
  - destruct (step st ev) as [st1|] eqn:Hstep; [|discriminate].
    eauto using consistent_step.
Qed.

Lemma reachable_consistent trace st :
  run initial trace = Some st → consistent st.
Proof. apply consistent_run, initial_consistent. Qed.

End Invariants.

(** ** Which frames are accepted *)

Section Parsing.

Implicit Types (st : server) (ws : handle) (message : frame) (data : json).

Lemma parse_object fields timestamp :
  parse (Decodes (JObj fields)) timestamp
  = match dict_get "text" fields, dict_get "sender" fields with
    | Some text, Some sender =>
        Ok (inl (JObj [("text", text); ("sender", sender);
                       ("timestamp", JStr timestamp)]))
    | _, _ => Ok (inr (JObj fields))
    end.
Proof.
  unfold parse, has_fields, make_message_obj, contains, getitem,
    mbind, result_bind. simpl.
  destruct (dict_get "text" fields), (dict_get "sender" fields); reflexivity.
Qed.

Lemma parse_not_object data timestamp :
  is_object data = false →
  (∃ d, parse (Decodes data) timestamp = Ok (inr d)) ∨
  parse (Decodes data) timestamp = Raise TypeError.
Proof.
  unfold parse, has_fields, make_message_obj, contains, getitem,
    mbind, result_bind.
  destruct data as [|b|n|r|s|items|fields]; simpl; try discriminate; intros _;
    auto; repeat (case_match; simpl; eauto; try discriminate).
Qed.

Lemma parse_accepted message timestamp :
  accepted message = true ↔ ∃ message_obj, parse message timestamp = Ok (inl message_obj).
Proof.
  destruct message as [data| | | |]; cbn [accepted];
    try (split; [discriminate|]; intros [obj Hobj]; discriminate).
  destruct data as [|b|n|r|s|items|fields];
      try (split; [discriminate|]; intros [obj Hobj];
           match type of Hobj with
           | parse (Decodes ?data) _ = _ =>
               destruct (parse_not_object data timestamp eq_refl) as [[d Hd]|Hd]
           end; congruence).
  rewrite parse_object.
  destruct (dict_get "text" fields), (dict_get "sender" fields); simpl;
    split; eauto; try discriminate; intros [obj Hobj]; discriminate.
Qed.

Lemma parse_raises message timestamp e :
  parse message timestamp = Raise e → is_Exception e = true.
Proof.
  destruct message as [data| | | |]; try by intros [= <-].
  destruct (is_object data) eqn:Hobj.
  - destruct data; try discriminate. rewrite parse_object.
    repeat case_match; discriminate.
  - destruct (parse_not_object _ timestamp Hobj) as [[d Hd]|Hd];
      rewrite Hd; [discriminate|]. by intros [= <-].
Qed.

Lemma appended_accepted ws message timestamp outs :
  appended (Receive ws message timestamp outs) = None ↔ accepted message = false.
Proof.
  simpl. rewrite <- not_true_iff_false, (parse_accepted _ timestamp).
  destruct (parse message timestamp) as [[obj|d]|e]; split; try done.
  - intros H. exfalso. apply H. eauto.
  - intros _ [obj Hobj]. discriminate.
  - intros _ [obj Hobj]. discriminate.
Qed.

Lemma new_sends_app st st' new : wire st' = wire st ++ new → new_sends st st' = new.
Proof. unfold new_sends. intros ->. apply drop_app_length. Qed.

(** A frame that is not accepted changes nothing but the log. *)
Lemma on_message_discards ws message timestamp outs st :
  accepted message = false →
  chat_history (on_message ws message timestamp outs st) = chat_history st ∧
  wire (on_message ws message timestamp outs st) = wire st ∧
  connected_clients (on_message ws message timestamp outs st) = connected_clients st ∧
  tasks (on_message ws message timestamp outs st) = tasks st.
Proof.
  intros Hacc. apply (appended_accepted ws _ timestamp outs) in Hacc.
  simpl in Hacc. unfold on_message.
  destruct (parse message timestamp) as [[obj|d]|e] eqn:Hparse; [done|done|].
  apply parse_raises in Hparse.
  rewrite inner_except_history, inner_except_wire.
  destruct (inner_except_caught ws e st Hparse). done.
Qed.

(** An accepted frame is stored and broadcast. *)
Lemma on_message_relays ws message timestamp outs st message_obj :
  parse message timestamp = Ok (inl message_obj) →
  on_message ws message timestamp outs st = broadcast ws message_obj outs st.
Proof. unfold on_message. by intros ->. Qed.

Lemma step_receive st ws message timestamp outs st' :
  step st (Receive ws message timestamp outs) = Some st' →
  tasks st !! ws = Some AwaitMessage ∧
  st' = on_message ws message timestamp outs st.
Proof. apply (step_cases st (Receive ws message timestamp outs)). Qed.

End Parsing.

Lemma fails_or_lacks_field_accepted message :
  fails_or_lacks_field message = negb (accepted message).
Proof.
  destruct message as [[]| | | |]; simpl; try reflexivity.
  by rewrite negb_andb.
Qed.

Lemma last_append_history history message_obj :
  last (append_history history message_obj) = Some message_obj.
Proof.
  unfold append_history. case_decide as Hfull; [|apply last_snoc].
  destruct history as [|m history]; simpl in *; [lia|].
  rewrite drop_0. apply last_snoc.
Qed.

(** ** Fan-out *)

Section FanOut.

Implicit Types (st : server) (ws client : handle) (message : frame).

Lemma sends_to_call_sends clients message_json outs client :
  NoDup clients →
  sends_to client (call_sends clients message_json outs)
  = if decide (client ∈ clients)
    then [Sent client message_json (outs client)] else [].
Proof.
  unfold sends_to, call_sends.
  induction clients as [|c clients IH]; intros Hnodup; [done|].
  apply NoDup_cons in Hnodup as [Hc Hnodup].
  rewrite fmap_cons, filter_cons, (IH Hnodup). simpl.
  destruct (decide (c = client)) as [->|Hne].
  - rewrite (decide_False (P := client ∈ clients)) by done.
    rewrite decide_True by set_solver. done.
  - destruct (decide (client ∈ clients)).
    + rewrite decide_True by set_solver. done.
    + rewrite decide_False by set_solver. done.
Qed.

Lemma sends_to_filter client (P : sent → Prop) `{∀ s, Decision (P s)} calls :
  sends_to client (filter P calls) = filter P (sends_to client calls).
Proof.
  unfold sends_to. induction calls as [|s calls IH]; [done|].
  rewrite !filter_cons.
  destruct (decide (P s)), (decide (to s = client));
    rewrite ?filter_cons, ?decide_True, ?decide_False by done; by rewrite IH.
Qed.

(** Every call is recorded once: at the call if it raised, by [gather]
    otherwise. *)
Lemma sends_to_recorded client calls s :
  sends_to client calls = [s] →
  sends_to client (raised_calls calls ++ broadcast_tasks calls) = [s].
Proof.
  intros Hone. unfold raised_calls, broadcast_tasks.
  assert (∀ w1 w2, sends_to client (w1 ++ w2)
                   = sends_to client w1 ++ sends_to client w2) as Happ
    by (intros; apply filter_app).
  rewrite Happ, !sends_to_filter, Hone, !filter_cons, !filter_nil.
  destruct (decide (outcome s = RaisesOnCall)).
  - by rewrite decide_False by auto.
  - by rewrite decide_True.
Qed.

Lemma sends_to_live_sends (clients : gset handle) message_obj outs client message_json :
  json_dumps (message_payload message_obj) = Ok message_json →
  client ∈ clients →
  sends_to client (live_sends clients message_obj outs)
  = [Sent client message_json (outs client)].
Proof.
  intros Hdumps Hin. unfold live_sends. rewrite Hdumps.
  apply sends_to_recorded.
  rewrite sends_to_call_sends by apply NoDup_elements.
  rewrite decide_True; [done|]. by apply elem_of_elements.
Qed.

Lemma sends_to_live_sends_absent (clients : gset handle) message_obj outs client :
  client ∉ clients → sends_to client (live_sends clients message_obj outs) = [].
Proof.
  intros Hout. unfold sends_to.
  induction (live_sends clients message_obj outs) as [|s l IH] eqn:Hl; [done|].
  assert (∀ s', s' ∈ s :: l → to s' ∈ clients) as Hall.
  { intros s' Hs'. rewrite <- Hl in Hs'.
    by apply live_sends_payload in Hs' as (_ & ? & _). }
  clear Hl IH. induction (s :: l) as [|s' l' IH]; [done|].
  rewrite filter_cons, decide_False.
  - apply IH. intros s'' Hs''. apply Hall. by right.
  - intros Heq. apply Hout. rewrite <- Heq. apply Hall. by left.
Qed.

Lemma live_sends_unencodable (clients : gset handle) message_obj outs e :
  json_dumps (message_payload message_obj) = Raise e →
  live_sends clients message_obj outs = [].
Proof. intros Hdumps. unfold live_sends. by rewrite Hdumps. Qed.

Lemma gather_caught aws e : gather aws = Some e → is_Exception e = true.
Proof. unfold gather. case_match; [|done]. by intros [= <-]. Qed.

(** After a broadcast the handler is back in its receive loop, at once or
    when the event loop resumes it from [gather], and resuming changes
    neither the registry, the history nor the wire. *)
Lemma broadcast_returns_to_loop st ws message_obj outs :
  let st' := broadcast ws message_obj outs st in
  tasks st !! ws = Some AwaitMessage →
  ∃ st'', (st'' = st' ∨ step st' (Resume ws) = Some st'') ∧
          tasks st'' !! ws = Some AwaitMessage ∧
          wire st'' = wire st' ∧
          chat_history st'' = chat_history st' ∧
          connected_clients st'' = connected_clients st'.
Proof.
  intros st' Hpc. subst st'. unfold broadcast.
  destruct (json_dumps _) as [message_json|e] eqn:Hdumps.
  - simpl. set (calls := call_sends _ _ _).
    destruct (broadcast_tasks calls) as [|aw aws'] eqn:Haws.
    { eexists. split; [by left|]. done. }
    set (mid := sending _ _).
    destruct (gather (aw :: aws')) as [e|] eqn:Hgather.
    + exists (inner_except ws e (set_pc ws AwaitMessage
                                   (set_pc ws (AwaitGather (Some e)) mid))).
      split.
      { right. simpl. by rewrite lookup_insert_eq. }
      apply gather_caught in Hgather.
      rewrite inner_except_wire, inner_except_history.
      destruct (inner_except_caught ws e
                  (set_pc ws AwaitMessage (set_pc ws (AwaitGather (Some e)) mid))
                  Hgather) as [-> ->].
      simpl. by rewrite lookup_insert_eq.
    + exists (set_pc ws AwaitMessage (set_pc ws (AwaitGather None) mid)).
      split.
      { right. simpl. by rewrite lookup_insert_eq. }
      simpl. by rewrite lookup_insert_eq.
  - apply json_dumps_raises in Hdumps as ->.
    eexists. split; [by left|]. done.
Qed.

End FanOut.

(** ** Dropped payloads *)

(** C6.  A payload that fails to parse, or parses but lacks [text] or
    [sender], causes no send, leaves the history and the registry as they
    were, and leaves the connection in its receive loop, where the next
    frame, whatever it is, is processed. *)
Theorem bad_payload_is_dropped st ws message timestamp outs st' :
  fails_or_lacks_field message = true →
  step st (Receive ws message timestamp outs) = Some st' →
  new_sends st st' = [] ∧
  chat_history st' = chat_history st ∧
  connected_clients st' = connected_clients st ∧
  tasks st' !! ws = Some AwaitMessage ∧
  ∀ message2 timestamp2 outs2,
    step st' (Receive ws message2 timestamp2 outs2)
    = Some (on_message ws message2 timestamp2 outs2 st').
Proof.
  intros Hbad [Hpc ->]%step_receive.
  rewrite fails_or_lacks_field_accepted in Hbad.
  apply negb_true_iff in Hbad.
  destruct (on_message_discards ws message timestamp outs st Hbad)
    as (Hh & Hw & Hc & Ht).
  assert (tasks (on_message ws message timestamp outs st) !! ws = Some AwaitMessage)
    as Hpc' by (by rewrite Ht).
  repeat split; try done.
  - apply new_sends_app. by rewrite Hw, app_nil_r.
  - intros message2 timestamp2 outs2. simpl. by rewrite Hpc'.
Qed.

Lemma bad_payload_is_dropped_witness :
  let st := accept 1 Delivered initial in
  let message := Decodes (JObj [("text", JStr "hi")]) in
  let st' := on_message 1 message "12:00" Scenario.all_delivered st in
  new_sends st st' = [] ∧ chat_history st' = [] ∧
  tasks st' !! 1 = Some AwaitMessage.
Proof.
  intros st message st'.
  assert (step st (Receive 1 message "12:00" Scenario.all_delivered) = Some st')
    as Hstep by reflexivity.
  destruct (bad_payload_is_dropped st 1 message "12:00" Scenario.all_delivered
              st' eq_refl Hstep) as (Hw & Hh & _ & Hpc & _).
  repeat split; assumption.
Defined.

(** C10.  A payload that is valid JSON but not an object changes neither
    the history nor the registry, causes no send and leaves the connection
    in its receive loop.  For a JSON string that contains both ["text"]
    and ["sender"] the test of line 81 succeeds, building the message
    raises [TypeError], and the handler logs it from line 123. *)
Theorem non_object_payload_is_dropped st ws data timestamp outs st' :
  is_object data = false →
  step st (Receive ws (Decodes data) timestamp outs) = Some st' →
  chat_history st' = chat_history st ∧
  connected_clients st' = connected_clients st ∧
  new_sends st st' = [] ∧
  tasks st' = tasks st ∧
  tasks st' !! ws = Some AwaitMessage ∧
  ∀ s, data = JStr s →
       str_contains "text" s = true → str_contains "sender" s = true →
       has_fields data = Ok true ∧
       make_message_obj data timestamp = Raise TypeError ∧
       log st' = log st ++ [ErrorProcessing TypeError].
Proof.
  intros Hobj [Hpc ->]%step_receive.
  assert (accepted (Decodes data) = false) as Hacc by (by destruct data).
  destruct (on_message_discards ws _ timestamp outs st Hacc) as (Hh & Hw & Hc & Ht).
  split; [done|]. split; [done|].
  split; [apply new_sends_app; by rewrite Hw, app_nil_r|].
  split; [done|]. split; [by rewrite Ht|].
  intros s -> Htext Hsender.
  assert (has_fields (JStr s) = Ok true) as Hfields.
  { cbv beta iota delta [has_fields contains mbind result_bind].
    by rewrite Htext, Hsender. }
  split; [done|]. split; [reflexivity|].
  unfold on_message, parse.
  cbv beta iota delta [json_loads mbind result_bind]. by rewrite Hfields.
Qed.

Lemma non_object_payload_is_dropped_witness :
  let st := accept 1 Delivered initial in
  let st' := on_message 1 (Decodes (JStr "text, sender")) "12:00"
                        Scenario.all_delivered st in
  chat_history st' = [] ∧ connected_clients st' = connected_clients st ∧
  new_sends st st' = [] ∧ log st' = [ErrorProcessing TypeError].
Proof.
  intros st st'.
  assert (step st (Receive 1 (Decodes (JStr "text, sender")) "12:00"
                           Scenario.all_delivered) = Some st')
    as Hstep by reflexivity.
  destruct (non_object_payload_is_dropped st 1 (JStr "text, sender") "12:00"
              Scenario.all_delivered st' eq_refl Hstep)
    as (Hh & Hc & Hw & _ & _ & Hstr).
  destruct (Hstr _ eq_refl eq_refl eq_refl) as (_ & _ & Hlog).
  split; [exact Hh|]. split; [exact Hc|]. split; [exact Hw|exact Hlog].
Defined.

(** C5, as the code has it.  Line 81 tests that the two keys are present
    and nothing else: a payload is discarded exactly when it fails to
    parse or does not decode to an object holding both keys.  An object
    holding both keys is not discarded whatever the types of the two
    values: it is appended to the history, and it is sent to every
    registered client when [json.dumps] encodes the live payload. *)
Theorem payload_is_discarded_unless_both_keys st ws message timestamp outs st' :
  step st (Receive ws message timestamp outs) = Some st' →
  (accepted message = false →
   chat_history st' = chat_history st ∧ new_sends st st' = []) ∧
  (accepted message = true →
   ∃ message_obj,
     parse message timestamp = Ok (inl message_obj) ∧
     chat_history st' = append_history (chat_history st) message_obj ∧
     ∀ message_json,
       json_dumps (message_payload message_obj) = Ok message_json →
       ∀ client, client ∈ connected_clients st →
         sends_to client (new_sends st st')
         = [Sent client message_json (outs client)]).
Proof.
  intros [Hpc ->]%step_receive. split; intros Hacc.
  - destruct (on_message_discards ws message timestamp outs st Hacc)
      as (Hh & Hw & _ & _).
    split; [done|]. apply new_sends_app. by rewrite Hw, app_nil_r.
  - apply (parse_accepted _ timestamp) in Hacc as [message_obj Hparse].
    exists message_obj. rewrite (on_message_relays _ _ _ _ _ _ Hparse).
    split; [done|]. split; [apply broadcast_history|].
    intros message_json Hdumps client Hin.
    rewrite (new_sends_app _ _ _ (broadcast_wire _ _ _ _)).
    by apply sends_to_live_sends.
Qed.

Lemma payload_is_discarded_unless_both_keys_witness :
  let st := accept 1 Delivered initial in
  let st' := on_message 1 (Decodes (JArr [JStr "text"; JStr "sender"])) "12:00"
                        Scenario.all_delivered st in
  chat_history st' = chat_history st ∧ new_sends st st' = [].
Proof.
  intros st st'.
  assert (step st (Receive 1 (Decodes (JArr [JStr "text"; JStr "sender"])) "12:00"
                           Scenario.all_delivered) = Some st')
    as Hstep by reflexivity.
  destruct (payload_is_discarded_unless_both_keys st 1 _ "12:00"
              Scenario.all_delivered st' Hstep) as [Hdrop _].
  exact (Hdrop eq_refl).
Defined.

(** C5 as stated fails: a payload whose [text] is a number and whose
    [sender] is null is stored and sent to the registered client. *)
Lemma non_string_fields_are_relayed :
  let st := accept 1 Delivered initial in
  let message := Decodes (JObj [("text", JInt 5); ("sender", JNull)]) in
  let message_obj :=
    JObj [("text", JInt 5); ("sender", JNull); ("timestamp", JStr "12:00")] in
  text_and_sender_strings message = false ∧
  ∃ st', step st (Receive 1 message "12:00" Scenario.all_delivered) = Some st' ∧
         chat_history st = [] ∧
         chat_history st' = [message_obj] ∧
         new_sends st st' = [Sent 1 (message_payload message_obj) Delivered].
Proof.
  intros st message message_obj. split; [reflexivity|].
  eexists. split; [reflexivity|]. vm_compute. auto.
Qed.

(** C8.  The message object built from an accepted payload has exactly the
    keys [text], [sender] and [timestamp]: the first two are the payload's
    values, the timestamp is the one the server read.  This object is what
    is stored and what is sent to every recipient.  It depends on nothing
    else in the payload: any payload with the same [text] and [sender],
    whatever other fields it carries (a [timestamp] of its own included),
    leads to the same state. *)
Theorem message_has_server_timestamp st ws message timestamp outs st' :
  accepted message = true →
  step st (Receive ws message timestamp outs) = Some st' →
  ∃ fields text sender message_obj,
    message = Decodes (JObj fields) ∧
    dict_get "text" fields = Some text ∧
    dict_get "sender" fields = Some sender ∧
    message_obj = JObj [("text", text); ("sender", sender);
                        ("timestamp", JStr timestamp)] ∧
    last (chat_history st') = Some message_obj ∧
    (∀ s, s ∈ new_sends st st' → payload s = message_payload message_obj) ∧
    (∀ fields', dict_get "text" fields' = Some text →
                dict_get "sender" fields' = Some sender →
                step st (Receive ws (Decodes (JObj fields')) timestamp outs) = Some st').
Proof.
  intros Hacc Hstep. pose proof Hstep as [Hpc ->]%step_receive.
  destruct message as [[| | | | | |fields]| | | |]; try discriminate.
  simpl in Hacc.
  destruct (dict_get "text" fields) as [text|] eqn:Htext; [|discriminate].
  destruct (dict_get "sender" fields) as [sender|] eqn:Hsender; [|discriminate].
  exists fields, text, sender. eexists. do 4 (split; [done|]).
  assert (∀ fields', dict_get "text" fields' = Some text →
                     dict_get "sender" fields' = Some sender →
    on_message ws (Decodes (JObj fields')) timestamp outs st
    = broadcast ws (JObj [("text", text); ("sender", sender);
                          ("timestamp", JStr timestamp)]) outs st) as Hsame.
  { intros fields' Ht Hs. apply on_message_relays.
    by rewrite parse_object, Ht, Hs. }
  rewrite (Hsame fields Htext Hsender).
  split; [|split].
  - rewrite broadcast_history. apply last_append_history.
  - intros s. rewrite (new_sends_app _ _ _ (broadcast_wire _ _ _ _)).
    by intros [-> _]%live_sends_payload.
  - intros fields' Ht Hs. simpl. by rewrite Hpc, (Hsame fields' Ht Hs).
Qed.

Lemma message_has_server_timestamp_witness :
  let st := accept 1 Delivered initial in
  let spoofed := JObj [("timestamp", JStr "1999-01-01"); ("text", JStr "hi");
                       ("admin", JBool true); ("sender", JStr "A")] in
  let message_obj := JObj [("text", JStr "hi"); ("sender", JStr "A");
                           ("timestamp", JStr "12:00")] in
  let st' := on_message 1 (Decodes spoofed) "12:00" Scenario.all_delivered st in
  last (chat_history st') = Some message_obj ∧
  ∀ s, s ∈ new_sends st st' → payload s = message_payload message_obj.
Proof.
  intros st spoofed message_obj st'.
  assert (step st (Receive 1 (Decodes spoofed) "12:00" Scenario.all_delivered)
          = Some st') as Hstep by reflexivity.
  destruct (message_has_server_timestamp st 1 (Decodes spoofed) "12:00"
              Scenario.all_delivered st' eq_refl Hstep)
    as (fields & text & sender & obj & [= <-] & [= <-] & [= <-] & -> & Hlast & Hsent & _).
  split; [exact Hlast|exact Hsent].
Defined.

(** C2 as stated fails: the payload [{"text": [[...["x"]...]], "sender":
    "A"}] with 993 nested lists has both required keys, is appended to the
    history at line 93, and then [json.dumps] raises [RecursionError] at
    line 102: the registered client, its sender, is sent nothing. *)
Lemma deep_message_is_stored_but_not_sent :
  let st := accept 1 Delivered initial in
  let message := Decodes (Scenario.deep 993) in
  accepted message = true ∧
  (1 ∈ connected_clients st) ∧
  ∃ st', step st (Receive 1 message "12:00" Scenario.all_delivered) = Some st' ∧
         chat_history st'
         = [JObj [("text", Scenario.nested 993); ("sender", JStr "A");
                  ("timestamp", JStr "12:00")]] ∧
         sends_to 1 (new_sends st st') = [] ∧
         log st' = [ErrorProcessing RecursionError].
Proof.
  intros st message. split; [reflexivity|]. split.
  - apply (bool_decide_unpack _). vm_compute. exact I.
  - eexists. split; [reflexivity|]. vm_compute. auto.
Qed.

(** C2, as the code has it.  When a message with both required keys is
    processed in a reachable state and [json.dumps] encodes its live
    payload, as it does whenever [text] and [sender] are strings, [send]
    is called exactly once on every registered client, the sender among
    them, with the live payload built from the message's [text] and
    [sender] and the server's timestamp; the payload is delivered when
    that call does not fail. *)
Theorem every_registered_client_is_sent_the_message
    trace st ws fields text sender timestamp outs st' :
  let live := JObj [("type", JStr "message");
                    ("message", JObj [("text", text); ("sender", sender);
                                      ("timestamp", JStr timestamp)])] in
  run initial trace = Some st →
  dict_get "text" fields = Some text →
  dict_get "sender" fields = Some sender →
  step st (Receive ws (Decodes (JObj fields)) timestamp outs) = Some st' →
  ((∃ t s, text = JStr t ∧ sender = JStr s) → json_dumps live = Ok live) ∧
  (json_dumps live = Ok live →
   ws ∈ connected_clients st ∧
   ∀ client, client ∈ connected_clients st →
     sends_to client (new_sends st st') = [Sent client live (outs client)]).
Proof.
  intros live Hreach Htext Hsender [Hpc ->]%step_receive.
  split; [by intros (t & s & -> & ->)|].
  intros Hdumps. split.
  - apply (registered_live _ (reachable_consistent _ _ Hreach)).
    unfold is_live. by rewrite Hpc.
  - intros client Hin.
    erewrite on_message_relays by (by rewrite parse_object, Htext, Hsender).
    rewrite (new_sends_app _ _ _ (broadcast_wire _ _ _ _)).
    by apply sends_to_live_sends.
Qed.

Lemma every_registered_client_is_sent_the_message_witness :
  ∃ st st',
    run initial [Accept 1 Delivered; Accept 2 Delivered; Accept 3 Delivered] = Some st ∧
    step st (Receive 2 (Decodes (JObj [("text", JStr "hi"); ("sender", JStr "B")]))
                     "12:00" Scenario.all_delivered)
    = Some st' ∧
    sends_to 2 (new_sends st st')
    = [Sent 2 (message_payload
                 (JObj [("text", JStr "hi"); ("sender", JStr "B");
                        ("timestamp", JStr "12:00")])) Delivered].
Proof.
  eexists. eexists. split; [reflexivity|]. split; [reflexivity|].
  destruct (every_registered_client_is_sent_the_message
              [Accept 1 Delivered; Accept 2 Delivered; Accept 3 Delivered]
              _ 2 [("text", JStr "hi"); ("sender", JStr "B")]
              (JStr "hi") (JStr "B") "12:00" Scenario.all_delivered _
              eq_refl eq_refl eq_refl eq_refl) as [Hstrings Hsent].
  destruct (Hsent (Hstrings ltac:(eauto))) as [Hin Hall].
  exact (Hall 2 Hin).
Defined.

(** C7.  In the broadcast of a message, that is, once [json.dumps] has
    encoded the live payload, every registered recipient whose own send
    succeeds receives the payload exactly once, whatever happens to the
    sends of the others; a recipient whose send fails receives nothing;
    nothing but the live payload is put on the wire, for the sender as
    for everyone else; nobody is unregistered; and the sender's handler
    is back in its receive loop afterwards, the exception that [gather]
    raises being caught at line 122. *)
Theorem failed_delivery_is_isolated st ws message timestamp outs message_obj st' :
  parse message timestamp = Ok (inl message_obj) →
  json_dumps (message_payload message_obj) = Ok (message_payload message_obj) →
  step st (Receive ws message timestamp outs) = Some st' →
  (∀ client, client ∈ connected_clients st → outs client = Delivered →
     delivered_to client (new_sends st st') = [message_payload message_obj]) ∧
  (∀ client, outs client ≠ Delivered →
     delivered_to client (new_sends st st') = []) ∧
  (∀ s, s ∈ new_sends st st' → payload s = message_payload message_obj) ∧
  connected_clients st' = connected_clients st ∧
  ∃ st'', (st'' = st' ∨ step st' (Resume ws) = Some st'') ∧
          tasks st'' !! ws = Some AwaitMessage ∧
          wire st'' = wire st' ∧
          chat_history st'' = chat_history st' ∧
          connected_clients st'' = connected_clients st'.
Proof.
  intros Hparse Hdumps [Hpc ->]%step_receive.
  rewrite (on_message_relays _ _ _ _ _ _ Hparse).
  rewrite (new_sends_app _ _ _ (broadcast_wire _ _ _ _)).
  assert (∀ client,
    delivered_to client (live_sends (connected_clients st) message_obj outs)
    = if decide (client ∈ connected_clients st)
      then if decide (outs client = Delivered)
           then [message_payload message_obj] else []
      else []) as Hdel.
  { intros client. unfold delivered_to. case_decide as Hin.
    - rewrite (sends_to_live_sends _ _ _ _ _ Hdumps Hin), filter_cons. simpl.
      by case_decide.
    - by rewrite sends_to_live_sends_absent. }
  split; [|split; [|split; [|split]]].
  - intros client Hin Hok. rewrite Hdel.
    by rewrite decide_True, decide_True.
  - intros client Hfail. rewrite Hdel.
    case_decide; [|done]. by rewrite decide_False.
  - by intros s [-> _]%live_sends_payload.
  - apply broadcast_clients.
  - by apply broadcast_returns_to_loop.
Qed.

Lemma failed_delivery_is_isolated_witness :
  let outs := fun client : handle =>
    if decide (client = 2) then RaisesOnAwait else Delivered in
  let live := message_payload (JObj [("text", JInt 7); ("sender", JStr "A");
                                     ("timestamp", JStr "12:00")]) in
  let st := accept 3 Delivered (accept 2 Delivered (accept 1 Delivered initial)) in
  let st' := on_message 1 (Decodes (Scenario.hello 7)) "12:00" outs st in
  run initial [Accept 1 Delivered; Accept 2 Delivered; Accept 3 Delivered] = Some st ∧
  delivered_to 1 (new_sends st st') = [live] ∧
  delivered_to 2 (new_sends st st') = [] ∧
  delivered_to 3 (new_sends st st') = [live] ∧
  tasks st' !! 1 = Some (AwaitGather (Some ConnectionClosed)).
Proof.
  intros outs live st st'.
  split; [reflexivity|].
  assert (step st (Receive 1 (Decodes (Scenario.hello 7)) "12:00" outs) = Some st')
    as Hstep by reflexivity.
  destruct (failed_delivery_is_isolated st 1 (Decodes (Scenario.hello 7)) "12:00"
              outs _ st' eq_refl eq_refl Hstep) as (Hok & Hfail & _).
  split; [|split; [|split]].
  - apply Hok; [|reflexivity].
    apply (bool_decide_unpack _). vm_compute. exact I.
  - apply Hfail. discriminate.
  - apply Hok; [|reflexivity].
    apply (bool_decide_unpack _). vm_compute. exact I.
  - reflexivity.
Defined.

(** ** What is on the wire, and in which order *)

Section Wire.

Implicit Types (st : server) (ws client : handle) (e : exn) (p : pc).

Lemma sends_to_none client (w : list sent) :
  (∀ s, s ∈ w → to s ≠ client) → sends_to client w = [].
Proof.
  unfold sends_to. induction w as [|s w IH]; intros Hw; [done|].
  rewrite filter_cons, decide_False by (apply Hw; left).
  apply IH. intros s' Hs'. apply Hw. by right.
Qed.

Lemma sends_to_all client (w : list sent) :
  (∀ s, s ∈ w → to s = client) → sends_to client w = w.
Proof.
  unfold sends_to. induction w as [|s w IH]; intros Hw; [done|].
  rewrite filter_cons, decide_True by (apply Hw; left).
  f_equal. apply IH. intros s' Hs'. apply Hw. by right.
Qed.

Lemma tasks_leave ws pending st ws' :
  is_Some (tasks st !! ws') → is_Some (tasks (leave ws pending st) !! ws').
Proof.
  unfold leave, set_remove, set_pc, logging.
  destruct pending as [e|]; [destruct (is_Exception e)|]; simpl;
    case_decide; simpl; rewrite lookup_insert; case_decide; eauto.
Qed.

Lemma tasks_set_pc ws p st ws' :
  is_Some (tasks st !! ws') → is_Some (tasks (set_pc ws p st) !! ws').
Proof. simpl. rewrite lookup_insert. case_decide; eauto. Qed.

Lemma tasks_inner_except ws e st ws' :
  is_Some (tasks st !! ws') → is_Some (tasks (inner_except ws e st) !! ws').
Proof.
  unfold inner_except. destruct e; simpl; auto using tasks_leave.
Qed.

Lemma tasks_logging l st ws' :
  is_Some (tasks st !! ws') → is_Some (tasks (logging l st) !! ws').
Proof. done. Qed.

Lemma tasks_accept_others ws out st ws' :
  is_Some (tasks st !! ws') → is_Some (tasks (accept ws out st) !! ws').
Proof.
  intros Hsome. unfold accept. simpl.
  destruct (chat_history st); [by apply tasks_set_pc|].
  destruct (json_dumps _); [|by apply tasks_leave].
  destruct out; first [by apply tasks_set_pc | by apply tasks_leave].
Qed.

Lemma tasks_broadcast ws message_obj outs st ws' :
  is_Some (tasks st !! ws') →
  is_Some (tasks (broadcast ws message_obj outs st) !! ws').
Proof.
  intros Hsome. unfold broadcast.
  destruct (json_dumps _); [|by apply tasks_inner_except].
  simpl. case_match; [done|]. by apply tasks_set_pc.
Qed.

Lemma tasks_step st ev st' ws' :
  step st ev = Some st' → is_Some (tasks st !! ws') → is_Some (tasks st' !! ws').
Proof.
  intros Hstep%step_cases Hsome.
  destruct ev as [ws out|ws message timestamp outs|ws|ws e|ws].
  - destruct Hstep as [_ ->]. by apply tasks_accept_others.
  - destruct Hstep as [_ ->]. unfold on_message.
    destruct (parse message timestamp) as [[obj|d]|e];
      [by apply tasks_broadcast|done|by apply tasks_inner_except].
  - destruct Hstep as (p & _ & Hresume).
    destruct p as [[e|]| |[e|]| |]; simpl in Hresume; try discriminate;
      injection Hresume as <-;
      auto using tasks_leave, tasks_set_pc, tasks_inner_except.
  - destruct Hstep as [_ ->]. by apply tasks_leave.
  - destruct Hstep as (p & _ & _ & ->). by apply tasks_leave.
Qed.

Lemma accept_wire ws out st :
  wire (accept ws out st) = wire st ++ joining_sends ws out (chat_history st).
Proof.
  unfold accept, joining_sends. simpl.
  destruct (chat_history st) eqn:Hh; simpl; [by rewrite app_nil_r|].
  destruct (json_dumps _); [|by rewrite leave_wire, app_nil_r].
  destruct out; simpl; rewrite ?leave_wire; simpl; rewrite ?Hh; done.
Qed.

Lemma tasks_accept ws out st : is_Some (tasks (accept ws out st) !! ws).
Proof.
  assert (∀ pending mid, is_Some (tasks (leave ws pending mid) !! ws)) as Hleave.
  { intros pending mid. unfold leave, set_remove.
    destruct pending as [e|]; [destruct (is_Exception e)|]; simpl;
      case_decide; simpl; rewrite lookup_insert_eq; eauto. }
  unfold accept. simpl.
  destruct (chat_history st); [simpl; rewrite lookup_insert_eq; eauto|].
  destruct (json_dumps _); [|apply Hleave].
  destruct out; try (simpl; rewrite lookup_insert_eq; eauto). apply Hleave.
Qed.

Lemma joining_sends_to ws out history s :
  s ∈ joining_sends ws out history → to s = ws.
Proof.
  unfold joining_sends. destruct history; [by intros ?%not_elem_of_nil|].
  destruct (json_dumps _); [|by intros ?%not_elem_of_nil].
  by intros ->%list_elem_of_singleton.
Qed.

Lemma depth_history_payload history n :
  (∀ message_obj, message_obj ∈ history → depth message_obj ≤ n) →
  depth (history_payload history) ≤ n + 2.
Proof.
  intros Hall.
  assert (foldr (fun item d => max (depth item) d) 0 history ≤ n) as Hfold.
  { induction history as [|m h IH]; [simpl; lia|].
    change (max (depth m) (foldr (fun item d => max (depth item) d) 0 h) ≤ n).
    apply Nat.max_lub; [apply Hall; by left|].
    apply IH. intros m' Hm'. apply Hall. by right. }
  change (S (max 0 (max (S (foldr (fun item d => max (depth item) d) 0 history)) 0))
          ≤ n + 2).
  lia.
Qed.

(** Once [ws] has a task, a step sends it nothing but live messages. *)
Lemma step_sends_live st ev st' ws :
  step st ev = Some st' → is_Some (tasks st !! ws) →
  ∃ new, wire st' = wire st ++ new ∧
         ∀ s, s ∈ new → to s = ws →
              ∃ message_obj, payload s = message_payload message_obj.
Proof.
  intros Hstep%step_cases Hsome.
  assert (∀ w : list sent, w = wire st →
    ∃ new, w = wire st ++ new ∧
           ∀ s, s ∈ new → to s = ws →
                ∃ message_obj, payload s = message_payload message_obj)
    as Hnone.
  { intros w ->. exists []. split; [by rewrite app_nil_r|].
    by intros s Hs%not_elem_of_nil. }
  destruct ev as [ws0 out|ws0 message timestamp outs|ws0|ws0 e|ws0].
  - destruct Hstep as [Hnew ->]. eexists. split; [apply accept_wire|].
    intros s Hs Hto. exfalso.
    assert (to s = ws0) as Heq by (by apply joining_sends_to in Hs).
    rewrite <- Hto, Heq, Hnew in Hsome. by destruct Hsome.
  - destruct Hstep as [_ ->]. unfold on_message.
    destruct (parse message timestamp) as [[obj|d]|e].
    + eexists. split; [apply broadcast_wire|].
      intros s [-> _]%live_sends_payload _. eauto.
    + by apply Hnone.
    + apply Hnone, inner_except_wire.
  - destruct Hstep as (p & _ & Hresume). apply Hnone.
    by apply (resume_wire ws0 p).
  - destruct Hstep as [_ ->]. apply Hnone, leave_wire.
  - destruct Hstep as (p & _ & _ & ->). apply Hnone, leave_wire.
Qed.

Lemma run_sends_live trace : ∀ st st' ws,
  run st trace = Some st' → is_Some (tasks st !! ws) →
  ∃ later, wire st' = wire st ++ later ∧
           ∀ s, s ∈ later → to s = ws →
                ∃ message_obj, payload s = message_payload message_obj.
Proof.
  induction trace as [|ev trace IH]; simpl; intros st st' ws Hrun Hsome.
  - injection Hrun as <-. exists []. split; [by rewrite app_nil_r|].
    by intros s Hs%not_elem_of_nil.
  - destruct (step st ev) as [st1|] eqn:Hstep; [|discriminate].
    destruct (step_sends_live _ _ _ ws Hstep Hsome) as (new & Hnew & Hlive).
    destruct (IH st1 st' ws Hrun (tasks_step _ _ _ _ Hstep Hsome))
      as (later & Hlater & Hlive').
    exists (new ++ later). split; [by rewrite Hlater, Hnew, app_assoc|].
    intros s [Hs|Hs]%elem_of_app; eauto.
Qed.

End Wire.

(** C3 as stated fails: once the history holds a message whose [text] is
    nested 992 deep, which was stored and broadcast, [json.dumps] raises
    [RecursionError] on the history payload (line 65): the client that
    joins is sent nothing and its handler returns at once. *)
Lemma joiner_is_sent_no_history_when_it_is_too_deep :
  ∃ st1 st2,
    run initial [Accept 1 Delivered;
                 Receive 1 (Decodes (Scenario.deep 992)) "12:00" Scenario.all_delivered;
                 Resume 1] = Some st1 ∧
    length (chat_history st1) = 1 ∧
    delivered_to 1 (wire st1)
    = [message_payload (JObj [("text", Scenario.nested 992); ("sender", JStr "A");
                              ("timestamp", JStr "12:00")])] ∧
    step st1 (Accept 2 Delivered) = Some st2 ∧
    sends_to 2 (wire st2) = [] ∧
    tasks st2 !! 2 = Some Returned ∧
    log st2 = [ErrorUnexpected RecursionError].
Proof.
  eexists _, _. split; [vm_compute; reflexivity|].
  split; [reflexivity|]. split; [vm_compute; reflexivity|].
  split; [vm_compute; reflexivity|]. vm_compute. auto.
Qed.

(** C3, as the code has it.  A client that joins a running server is sent,
    in the same atomic block that registers it, one history payload
    holding the whole buffer in insertion order when the buffer is not
    empty and [json.dumps] encodes it, as it does when no stored message
    is nested deeper than the limit less two, and nothing when the buffer
    is empty.  Nothing was sent to it before, and everything sent to it
    afterwards is a live message: the history payload precedes every live
    message on its connection. *)
Theorem history_is_sent_first before st1 ws out st2 after st3 :
  let history_json := JObj [("type", JStr "history");
                            ("messages", JArr (chat_history st1))] in
  run initial before = Some st1 →
  step st1 (Accept ws out) = Some st2 →
  run st2 after = Some st3 →
  chat_history st1 = most_recent 100 (processed before) ∧
  ((∀ message_obj, message_obj ∈ chat_history st1 →
                   depth message_obj + 2 ≤ nesting_limit) →
   json_dumps history_json = Ok history_json) ∧
  (chat_history st1 = [] → sends_to ws (wire st2) = []) ∧
  (chat_history st1 ≠ [] → json_dumps history_json = Ok history_json →
   sends_to ws (wire st2) = [Sent ws history_json out]) ∧
  ∃ later,
    wire st3 = wire st2 ++ later ∧
    (∀ s, s ∈ later → to s = ws →
          ∃ message_obj, payload s = message_payload message_obj) ∧
    sends_to ws (wire st3) = sends_to ws (wire st2) ++ sends_to ws later.
Proof.
  intros history_json Hbefore Hstep Hafter.
  pose proof (reachable_consistent _ _ Hbefore) as Hst1.
  split; [by apply (run_history before initial st1 [])|].
  split.
  { intros Hshallow. unfold json_dumps. rewrite decide_True; [done|].
    assert (depth (history_payload (chat_history st1)) ≤ (nesting_limit - 2) + 2)
      as Hdepth.
    { apply depth_history_payload. intros m Hm%Hshallow. lia. }
    unfold nesting_limit in *. unfold history_json. simpl in *. lia. }
  assert (tasks st1 !! ws = None ∧ st2 = accept ws out st1) as [Hnew ->].
  { simpl in Hstep. destruct (tasks st1 !! ws); [discriminate|].
    by injection Hstep as <-. }
  assert (sends_to ws (wire (accept ws out st1))
          = joining_sends ws out (chat_history st1)) as Hjoin.
  { rewrite accept_wire. unfold sends_to. rewrite filter_app.
    fold (sends_to ws (wire st1)). rewrite sends_to_none.
    - simpl. apply sends_to_all. apply joining_sends_to.
    - intros s Hs Hto. apply (wire_known _ Hst1) in Hs.
      rewrite Hto, Hnew in Hs. by destruct Hs. }
  split; [|split].
  - intros Hempty. rewrite Hjoin. unfold joining_sends. by rewrite Hempty.
  - intros Hfull Hdumps. rewrite Hjoin. unfold joining_sends.
    destruct (chat_history st1); [done|].
    unfold history_json in Hdumps. fold (history_payload (j :: l)) in Hdumps.
    by rewrite Hdumps.
  - destruct (run_sends_live _ _ _ ws Hafter (tasks_accept ws out st1))
      as (later & Hlater & Hlive).
    exists later. split; [done|]. split; [done|].
    rewrite Hlater. unfold sends_to. apply filter_app.
Qed.

Lemma history_is_sent_first_witness :
  ∃ st1 st2 st3,
    run initial (Scenario.one_client 2) = Some st1 ∧
    step st1 (Accept 2 Delivered) = Some st2 ∧
    run st2 (Scenario.says 3 1) = Some st3 ∧
    sends_to 2 (wire st2)
    = [Sent 2 (history_payload [Scenario.stamped 1; Scenario.stamped 2]) Delivered] ∧
    sends_to 2 (wire st3)
    = [Sent 2 (history_payload [Scenario.stamped 1; Scenario.stamped 2]) Delivered;
       Sent 2 (message_payload (Scenario.stamped 3)) Delivered].
Proof.
  eexists _, _, _.
  split; [vm_compute; reflexivity|].
  split; [vm_compute; reflexivity|].
  split; [vm_compute; reflexivity|].
  destruct (history_is_sent_first (Scenario.one_client 2) _ 2 Delivered _
              (Scenario.says 3 1) _
              ltac:(vm_compute; reflexivity) ltac:(vm_compute; reflexivity)
              ltac:(vm_compute; reflexivity))
    as (_ & _ & _ & Hjoin & later & _ & _ & Hall).
  split; [apply Hjoin; [discriminate|reflexivity]|].
  vm_compute. reflexivity.
Defined.

(** ** Registration and cleanup *)



(** C4 as stated fails: line 128 uses [set.remove], which raises
    [KeyError] on a handle that is not in the set, and the handler that
    runs it ends with that exception. *)
Lemma unregister_absent_raises_KeyError :
  let st := Server {[2]} [] {[2 := AwaitMessage]} [] [] in
  (1 ∉ connected_clients st) ∧
  set_remove (connected_clients st) 1 = Raise KeyError ∧
  tasks (leave 1 None st) !! 1 = Some (Failed KeyError).
Proof.
  intros st. split; [|split].
  - apply (bool_decide_unpack _). vm_compute. exact I.
  - reflexivity.
  - reflexivity.
Qed.

(** C4, as the code has it.  Unregistering a handle that is absent raises
    [KeyError]; the registry is left as it was, so no other member is
    affected.  Unregistering a handle that is present removes that handle
    and no other.  In a run of the server the case does not arise: a
    handler is the only one to unregister its handle, does so once, when
    it leaves, and finds the handle registered. *)
Theorem unregister_absent_raises (clients : gset handle) (ws : handle) :
  (ws ∉ clients →
   set_remove clients ws = Raise KeyError ∧
   ∀ pending st, connected_clients st = clients →
                 connected_clients (leave ws pending st) = clients) ∧
  (ws ∈ clients →
   ∃ clients', set_remove clients ws = Ok clients' ∧ (ws ∉ clients') ∧
               ∀ other, other ≠ ws → (other ∈ clients' ↔ other ∈ clients)) ∧
  (∀ trace st ev st',
     run initial trace = Some st → step st ev = Some st' →
     (∀ ws', tasks st' !! ws' ≠ Some (Failed KeyError)) ∧
     (∀ ws', ws' ∈ connected_clients st → ws' ∉ connected_clients st' →
             is_live st ws' = true ∧ is_live st' ws' = false)).
Proof.
  split; [|split].
  - intros Hout. unfold set_remove. rewrite decide_False by done.
    split; [done|]. intros pending st <-.
    unfold leave, set_remove.
    destruct pending as [e|]; [destruct (is_Exception e)|]; simpl;
      by rewrite decide_False.
  - intros Hin. unfold set_remove. rewrite decide_True by done.
    eexists. split; [done|]. split; set_solver.
  - intros trace st ev st' Hreach Hstep.
    pose proof (reachable_consistent _ _ Hreach) as Hst.
    pose proof (consistent_step _ _ _ Hst Hstep) as Hst'.
    split; [apply (no_KeyError _ Hst')|].
    intros ws' Hin Hout.
    split; [by apply (registered_live _ Hst)|].
    apply not_true_is_false. by rewrite <- (registered_live _ Hst').
Qed.

Lemma unregister_absent_raises_witness :
  set_remove {[2]} 1 = Raise KeyError ∧
  (∃ clients', set_remove {[1; 2]} 1 = Ok clients' ∧ 1 ∉ clients') ∧
  ∀ ws, tasks (leave 1 None (accept 1 Delivered initial)) !! ws
        ≠ Some (Failed KeyError).
Proof.
  split; [|split].
  - destruct (unregister_absent_raises {[2]} 1) as [Habsent _].
    apply Habsent. apply (bool_decide_unpack _). vm_compute. exact I.
  - destruct (unregister_absent_raises {[1; 2]} 1) as (_ & Hpresent & _).
    destruct Hpresent as (clients' & Hok & Hout & _).
    + apply (bool_decide_unpack _). vm_compute. exact I.
    + eauto.
  - destruct (unregister_absent_raises ∅ 1) as (_ & _ & Hrun).
    destruct (Hrun [Accept 1 Delivered] (accept 1 Delivered initial)
                   (Close 1 None) (leave 1 None (accept 1 Delivered initial))
                   eq_refl eq_refl) as [Hkey _].
    exact Hkey.
Defined.

(** ** Runs, step by step *)

Section Runs.

Implicit Types (st : server) (ws : handle) (ev : event) (trace : list event).

Lemma run_app trace1 trace2 st :
  run st (trace1 ++ trace2)
  = match run st trace1 with
    | Some st1 => run st1 trace2
    | None => None
    end.
Proof.
  revert st. induction trace1 as [|ev trace1 IH]; intros st; simpl; [done|].
  destruct (step st ev); [apply IH|done].
Qed.

Lemma run_snoc trace ev st st' :
  run st (trace ++ [ev]) = Some st' →
  ∃ st1, run st trace = Some st1 ∧ step st1 ev = Some st'.
Proof.
  rewrite run_app. destruct (run st trace) as [st1|]; [|discriminate].
  simpl. destruct (step st1 ev) as [st2|] eqn:Hstep; [|discriminate].
  intros [= <-]. eauto.
Qed.

Lemma processed_app trace1 trace2 :
  processed (trace1 ++ trace2) = processed trace1 ++ processed trace2.
Proof. apply omap_app. Qed.

(** Every step extends the wire by the calls it makes. *)
Lemma step_wire st ev st' :
  step st ev = Some st' → wire st' = wire st ++ step_sends st ev.
Proof.
  intros Hstep%step_cases.
  destruct ev as [ws out|ws message timestamp outs|ws|ws e|ws];
    unfold step_sends.
  - destruct Hstep as [_ ->]. apply accept_wire.
  - destruct Hstep as [_ ->]. unfold on_message, appended.
    destruct (parse message timestamp) as [[obj|d]|e].
    + apply broadcast_wire.
    + by rewrite app_nil_r.
    + by rewrite inner_except_wire, app_nil_r.
  - destruct Hstep as (p & _ & Hresume).
    by rewrite (resume_wire _ _ _ _ Hresume), app_nil_r.
  - destruct Hstep as [_ ->]. by rewrite leave_wire, app_nil_r.
  - destruct Hstep as (p & _ & _ & ->). by rewrite leave_wire, app_nil_r.
Qed.

Lemma run_wire trace : ∀ st st',
  run st trace = Some st' → wire st' = wire st ++ new_sends st st'.
Proof.
  induction trace as [|ev trace IH]; simpl; intros st st' Hrun.
  - injection Hrun as <-. unfold new_sends. by rewrite drop_all, app_nil_r.
  - destruct (step st ev) as [st1|] eqn:Hstep; [|discriminate].
    pose proof (IH _ _ Hrun) as Hlater. apply step_wire in Hstep.
    unfold new_sends. rewrite Hlater, Hstep, <- app_assoc.
    by rewrite drop_app_length.
Qed.

Lemma new_sends_cons st st1 st' ev trace :
  step st ev = Some st1 → run st1 trace = Some st' →
  new_sends st st' = step_sends st ev ++ new_sends st1 st'.
Proof.
  intros Hstep%step_wire Hrun%run_wire.
  unfold new_sends at 1. rewrite Hrun, Hstep, <- app_assoc.
  by rewrite drop_app_length.
Qed.

Lemma sends_to_app ws (w1 w2 : list sent) :
  sends_to ws (w1 ++ w2) = sends_to ws w1 ++ sends_to ws w2.
Proof. apply filter_app. Qed.

Lemma sends_to_joining ws ws' out history :
  sends_to ws (joining_sends ws' out history)
  = if decide (ws' = ws) then joining_sends ws' out history else [].
Proof.
  case_decide as Heq.
  - subst ws'. apply sends_to_all. apply joining_sends_to.
  - apply sends_to_none. by intros s ->%joining_sends_to.
Qed.

Lemma leave_unregisters ws pending st :
  ws ∉ connected_clients (leave ws pending st).
Proof.
  unfold leave, set_remove.
  destruct pending as [e|]; [destruct (is_Exception e)|]; simpl;
    case_decide; simpl; set_solver.
Qed.

(** A client that is registered when the block of [accept] ends was sent
    the history if there was one. *)
Lemma accept_registered ws out st :
  ws ∈ connected_clients (accept ws out st) →
  joining_sends ws out (chat_history st)
  = match chat_history st with
    | [] => []
    | oldest :: newer => [Sent ws (history_payload (oldest :: newer)) out]
    end.
Proof.
  unfold accept, joining_sends. simpl.
  destruct (chat_history st) as [|m h]; [done|].
  destruct (json_dumps _) as [history_json|e] eqn:Hdumps.
  - by apply json_dumps_ok in Hdumps as ->.
  - by intros Hin%leave_unregisters.
Qed.

End Runs.

(** ** What the clients see *)

Section Views.

Implicit Types (st : server) (ws : handle) (ev : event) (trace : list event).

Lemma reachable_history trace st :
  run initial trace = Some st →
  chat_history st = most_recent 100 (processed trace).
Proof. intros Hrun. by apply (run_history trace initial st []). Qed.

Lemma registered_has_task st ws :
  consistent st → ws ∈ connected_clients st → is_Some (tasks st !! ws).
Proof.
  intros Hst Hin%(registered_live _ Hst). unfold is_live in Hin.
  destruct (tasks st !! ws); [eauto|discriminate].
Qed.

(** In one step a registered client is sent the message the step
    processes, if it processes one, and nothing else. *)
Lemma step_sends_registered st ev st' ws :
  consistent st → step st ev = Some st' → ws ∈ connected_clients st →
  payload <$> sends_to ws (step_sends st ev)
  = message_payload <$> filter (fun m => broadcastable m = true) (processed [ev]).
Proof.
  intros Hst Hstep%step_cases Hin.
  destruct ev as [ws0 out|ws0 message timestamp outs|ws0|ws0 e|ws0];
    unfold processed, step_sends; simpl; try done.
  - destruct Hstep as [Hnew _]. rewrite sends_to_joining.
    rewrite decide_False; [done|]. intros ->.
    destruct (registered_has_task _ _ Hst Hin) as [p Hp]. congruence.
  - destruct (parse message timestamp) as [[obj|d]|e]; simpl; try done.
    rewrite filter_cons, filter_nil. unfold broadcastable.
    destruct (json_dumps (message_payload obj)) as [message_json|e] eqn:Hdumps.
    + rewrite (sends_to_live_sends _ _ _ _ _ Hdumps Hin).
      rewrite decide_True by done. simpl.
      by apply json_dumps_ok in Hdumps as ->.
    + rewrite (live_sends_unencodable _ _ _ _ Hdumps).
      by rewrite decide_False.
Qed.

Lemma run_sends_registered trace : ∀ st st' ws,
  consistent st → run st trace = Some st' →
  stays_registered ws st trace = true →
  payload <$> sends_to ws (new_sends st st')
  = message_payload <$> filter (fun m => broadcastable m = true) (processed trace).
Proof.
  induction trace as [|ev trace IH]; intros st st' ws Hst Hrun Hstays;
    simpl in Hrun, Hstays.
  - injection Hrun as <-. unfold new_sends. by rewrite drop_all.
  - destruct (step st ev) as [st1|] eqn:Hstep; [|discriminate].
    apply andb_true_iff in Hstays as [Hin%bool_decide_eq_true Hstays].
    rewrite (new_sends_cons _ _ _ _ _ Hstep Hrun), sends_to_app, fmap_app.
    rewrite (step_sends_registered _ _ _ _ Hst Hstep Hin).
    rewrite (IH st1 st' ws (consistent_step _ _ _ Hst Hstep) Hrun Hstays).
    by rewrite <- fmap_app, <- filter_app, <- processed_app.
Qed.

End Views.

(** X1.  Whatever the server has put on the wire comes from the messages it
    processed: a live payload carries one of the processed messages, and a
    history payload carries the last messages, at least one and at most
    100, of those processed up to some point of the run. *)
Theorem wire_carries_only_processed trace st :
  run initial trace = Some st →
  ∀ s, s ∈ wire st →
    (∃ message_obj, payload s = message_payload message_obj ∧
                    message_obj ∈ processed trace) ∨
    (∃ k, payload s = history_payload (most_recent 100 (processed (take k trace))) ∧
          0 < length (most_recent 100 (processed (take k trace))) ≤ 100).
Proof.
  revert st. induction trace as [|ev trace IH] using rev_ind; intros st Hrun s Hs.
  - injection Hrun as <-. by apply not_elem_of_nil in Hs.
  - apply run_snoc in Hrun as (st1 & Hrun & Hstep).
    rewrite (step_wire _ _ _ Hstep) in Hs. apply elem_of_app in Hs as [Hs|Hs].
    + destruct (IH _ Hrun s Hs) as [(m & Hm & Hin)|(k & Hk & Hlen)].
      * left. exists m. split; [done|]. rewrite processed_app.
        apply elem_of_app. by left.
      * right. exists (min k (length trace)).
        rewrite take_app_le by lia.
        replace (take (min k (length trace)) trace) with (take k trace); [done|].
        destruct (decide (k ≤ length trace)).
        -- by rewrite Nat.min_l.
        -- rewrite Nat.min_r by lia. by rewrite !take_ge by lia.
    + destruct ev as [ws out|ws message timestamp outs|ws|ws e|ws];
        unfold step_sends in Hs; try by apply not_elem_of_nil in Hs.
      * right. exists (length trace). rewrite take_app_length.
        rewrite <- (reachable_history _ _ Hrun).
        unfold joining_sends in Hs.
        pose proof (reachable_history _ _ Hrun) as Hh.
        destruct (chat_history st1) as [|m h] eqn:Hhist;
          [by apply not_elem_of_nil in Hs|].
        destruct (json_dumps _) as [history_json|e] eqn:Hdumps;
          [|by apply not_elem_of_nil in Hs].
        apply json_dumps_ok in Hdumps as ->.
        apply list_elem_of_singleton in Hs as ->. split; [done|].
        split; [simpl; lia|]. rewrite Hh, most_recent_length. lia.
      * left. destruct (appended _) as [m|] eqn:Happ;
          [|by apply not_elem_of_nil in Hs].
        apply live_sends_payload in Hs as [Hs _]. exists m. split; [done|].
        rewrite processed_app. apply elem_of_app. right.
        unfold processed. simpl. simpl in Happ. rewrite Happ. by left.
Qed.

Lemma wire_carries_only_processed_witness :
  ∃ st, run initial (Scenario.one_client 2 ++ [Accept 2 Delivered]) = Some st ∧
        length (wire st) = 3 ∧
        ∀ s, s ∈ wire st →
          (∃ message_obj, payload s = message_payload message_obj ∧
             message_obj ∈ processed (Scenario.one_client 2 ++ [Accept 2 Delivered])) ∨
          (∃ k, payload s = history_payload
                  (most_recent 100 (processed
                     (take k (Scenario.one_client 2 ++ [Accept 2 Delivered])))) ∧
                0 < length (most_recent 100 (processed
                     (take k (Scenario.one_client 2 ++ [Accept 2 Delivered])))) ≤ 100).
Proof.
  eexists. split; [vm_compute; reflexivity|]. split; [reflexivity|].
  apply (wire_carries_only_processed
           (Scenario.one_client 2 ++ [Accept 2 Delivered])).
  vm_compute. reflexivity.
Defined.

(** X2.  A client that stays registered throughout a stretch of a run is
    sent, during that stretch, exactly the messages processed in it whose
    live payload [json.dumps] encodes, each once and in processing order,
    the order in which they enter the history; and nothing else. *)
Theorem broadcast_order_is_processing_order before st trace st' ws :
  run initial before = Some st →
  run st trace = Some st' →
  stays_registered ws st trace = true →
  payload <$> sends_to ws (new_sends st st')
  = message_payload <$> filter (fun m => broadcastable m = true) (processed trace).
Proof.
  intros Hbefore Hrun Hstays.
  apply (run_sends_registered trace); [|done..].
  by apply (reachable_consistent before).
Qed.

Lemma broadcast_order_is_processing_order_witness :
  let before := [Accept 2 Delivered; Accept 1 Delivered] in
  let trace := Scenario.says 1 2 ++ [Accept 3 Delivered] ++ Scenario.says 3 1 in
  ∃ st st',
    run initial before = Some st ∧ run st trace = Some st' ∧
    payload <$> sends_to 2 (new_sends st st')
    = [message_payload (Scenario.stamped 1); message_payload (Scenario.stamped 2);
       message_payload (Scenario.stamped 3)].
Proof.
  intros before trace. eexists _, _.
  split; [vm_compute; reflexivity|]. split; [vm_compute; reflexivity|].
  rewrite (broadcast_order_is_processing_order before _ trace _ 2
             ltac:(vm_compute; reflexivity) ltac:(vm_compute; reflexivity)
             ltac:(vm_compute; reflexivity)).
  vm_compute. reflexivity.
Defined.

(** X3.  A client that joins and stays registered sees the conversation in
    order and without repetition: first one history payload with the last
    (at most 100) messages processed before it joined, none if there were
    none, then one live payload for each message processed after it
    joined whose live payload [json.dumps] encodes, in processing
    order. *)
Theorem joiner_sees_history_then_live before st1 ws out st2 after st3 :
  run initial before = Some st1 →
  step st1 (Accept ws out) = Some st2 →
  run st2 after = Some st3 →
  stays_registered ws st2 after = true →
  payload <$> sends_to ws (wire st3)
  = match most_recent 100 (processed before) with
    | [] => []
    | oldest :: newer => [history_payload (oldest :: newer)]
    end ++ (message_payload
              <$> filter (fun m => broadcastable m = true) (processed after)).
Proof.
  intros Hbefore Hstep Hafter Hstays.
  pose proof (reachable_consistent _ _ Hbefore) as Hst1.
  pose proof (consistent_step _ _ _ Hst1 Hstep) as Hst2.
  rewrite (run_wire _ _ _ Hafter), sends_to_app, fmap_app.
  rewrite (run_sends_registered _ _ _ _ Hst2 Hafter Hstays). f_equal.
  rewrite (step_wire _ _ _ Hstep), sends_to_app.
  apply step_cases in Hstep as [Hnew ->].
  rewrite sends_to_none.
  - simpl. rewrite sends_to_joining, decide_True by done.
    rewrite accept_registered.
    + rewrite (reachable_history _ _ Hbefore).
      by destruct (most_recent 100 (processed before)).
    + destruct after; simpl in Hstays;
        by apply andb_true_iff in Hstays as [?%bool_decide_eq_true _].
  - intros s Hs Hto. apply (wire_known _ Hst1) in Hs.
    rewrite Hto, Hnew in Hs. by destruct Hs.
Qed.

Lemma joiner_sees_history_then_live_witness :
  ∃ st1 st2 st3,
    run initial (Scenario.one_client 2) = Some st1 ∧
    step st1 (Accept 2 Delivered) = Some st2 ∧
    run st2 (Scenario.says 3 2) = Some st3 ∧
    payload <$> sends_to 2 (wire st3)
    = [history_payload [Scenario.stamped 1; Scenario.stamped 2];
       message_payload (Scenario.stamped 3); message_payload (Scenario.stamped 4)].
Proof.
  eexists _, _, _.
  split; [vm_compute; reflexivity|].
  split; [vm_compute; reflexivity|].
  split; [vm_compute; reflexivity|].
  rewrite (joiner_sees_history_then_live (Scenario.one_client 2) _ 2 Delivered
             _ (Scenario.says 3 2) _
             ltac:(vm_compute; reflexivity) ltac:(vm_compute; reflexivity)
             ltac:(vm_compute; reflexivity) ltac:(vm_compute; reflexivity)).
  vm_compute. reflexivity.
Defined.

(** ** One connection and the others *)

Section Isolation.

Implicit Types (st : server) (ws : handle) (ev : event) (e : exn) (p : pc).

Lemma same_for_others_refl ws st : same_for_others ws st st.
Proof. by intros ws' _. Qed.

Lemma same_for_others_trans ws st1 st2 st3 :
  same_for_others ws st1 st2 → same_for_others ws st2 st3 →
  same_for_others ws st1 st3.
Proof.
  intros H12 H23 ws' Hne.
  destruct (H12 ws' Hne) as [Ht12 Hc12], (H23 ws' Hne) as [Ht23 Hc23].
  split; [congruence|]. by rewrite Hc23.
Qed.

Lemma set_pc_others ws p st : same_for_others ws st (set_pc ws p st).
Proof. intros ws' Hne. simpl. by rewrite lookup_insert_ne. Qed.

Lemma leave_others ws pending st : same_for_others ws st (leave ws pending st).
Proof.
  intros ws' Hne. unfold leave, set_remove.
  destruct pending as [e|]; [destruct (is_Exception e)|]; simpl;
    case_decide; simpl; rewrite lookup_insert_ne by done; set_solver.
Qed.

Lemma inner_except_others ws e st :
  same_for_others ws st (inner_except ws e st).
Proof.
  unfold inner_except.
  destruct e; simpl; first [apply leave_others | by intros ws' _].
Qed.

Lemma accept_others ws out st : same_for_others ws st (accept ws out st).
Proof.
  intros ws' Hne.
  assert (∀ pending sends,
    let mid := Server ({[ws]} ∪ connected_clients st) (chat_history st)
                      (tasks st) (wire st ++ sends) (log st) in
    tasks (leave ws pending mid) !! ws' = tasks st !! ws' ∧
    (ws' ∈ connected_clients (leave ws pending mid) ↔ ws' ∈ connected_clients st))
    as Hleave.
  { intros pending sends mid.
    destruct (leave_others ws pending mid ws' Hne) as [-> ->].
    simpl. set_solver. }
  unfold accept. simpl.
  destruct (chat_history st) as [|m h] eqn:Hh; simpl.
  - rewrite lookup_insert_ne by done. set_solver.
  - destruct (json_dumps _).
    + destruct out; simpl; try (rewrite lookup_insert_ne by done; set_solver).
      unfold sending. simpl. apply Hleave.
    + rewrite <- (app_nil_r (wire st)). apply Hleave.
Qed.

Lemma broadcast_others ws message_obj outs st :
  same_for_others ws st (broadcast ws message_obj outs st).
Proof.
  unfold broadcast. destruct (json_dumps _).
  - simpl. case_match; [by intros ws' _|].
    intros ws' Hne. simpl. by rewrite lookup_insert_ne.
  - eapply same_for_others_trans; [|apply inner_except_others].
    by intros ws' _.
Qed.

Lemma on_message_others ws message timestamp outs st :
  same_for_others ws st (on_message ws message timestamp outs st).
Proof.
  unfold on_message.
  destruct (parse message timestamp) as [[obj|d]|e];
    [apply broadcast_others|by intros ws' _|apply inner_except_others].
Qed.

Lemma resume_others ws p st st' :
  resume ws p st = Some st' → same_for_others ws st st'.
Proof.
  destruct p as [[e|]| |[e|]| |]; simpl; intros [= <-];
    auto using set_pc_others, leave_others.
  eapply same_for_others_trans; [apply set_pc_others|apply inner_except_others].
Qed.

Lemma step_others st ev st' :
  step st ev = Some st' → same_for_others (subject ev) st st'.
Proof.
  intros Hstep%step_cases.
  destruct ev as [ws out|ws message timestamp outs|ws|ws e|ws]; simpl.
  - destruct Hstep as [_ ->]. apply accept_others.
  - destruct Hstep as [_ ->]. apply on_message_others.
  - destruct Hstep as (p & _ & Hresume). by apply (resume_others ws p).
  - destruct Hstep as [_ ->]. apply leave_others.
  - destruct Hstep as (p & _ & _ & ->). apply leave_others.
Qed.

(** An event of [ws] is enabled only while its handler is suspended, or,
    for [Accept], before it has one. *)
Lemma step_subject_not_left st ev st' :
  step st ev = Some st' → has_left st (subject ev) = false.
Proof.
  intros Hstep%step_cases. unfold has_left.
  destruct ev as [ws out|ws message timestamp outs|ws|ws e|ws]; simpl.
  - destruct Hstep as [-> _]. done.
  - destruct Hstep as [-> _]. done.
  - destruct Hstep as (p & -> & Hresume).
    destruct p as [[e|]| |[e|]| |]; simpl in *; done.
  - destruct Hstep as [-> _]. done.
  - destruct Hstep as (p & -> & -> & _). done.
Qed.

End Isolation.

(** X4.  Whatever a step does for one connection (accepting it, processing
    or dropping its frame, resuming it after a send that failed, closing
    or cancelling it), the handler of every other connection stays where
    it is and every other websocket stays registered, or unregistered, as
    it was. *)
Theorem other_connections_untouched st ev st' ws :
  step st ev = Some st' →
  ws ≠ subject ev →
  tasks st' !! ws = tasks st !! ws ∧
  (ws ∈ connected_clients st' ↔ ws ∈ connected_clients st).
Proof. intros Hstep Hne. by apply (step_others st ev st' Hstep). Qed.

Lemma other_connections_untouched_witness :
  let st := accept 2 Delivered (accept 1 Delivered initial) in
  let st' := leave 1 (Some ConnectionClosed) st in
  step st (Close 1 (Some ConnectionClosed)) = Some st' ∧
  tasks st' !! 2 = Some AwaitMessage ∧
  (2 ∈ connected_clients st' ↔ 2 ∈ connected_clients st).
Proof.
  intros st st'.
  assert (step st (Close 1 (Some ConnectionClosed)) = Some st') as Hstep
    by reflexivity.
  split; [exact Hstep|].
  destruct (other_connections_untouched st _ st' 2 Hstep) as [Hpc Hreg].
  - simpl. lia.
  - split; [rewrite Hpc; reflexivity|exact Hreg].
Defined.

(** X5.  Once a handler has left, by returning or by being cancelled, no
    later step of the server registers its websocket again or calls
    [send] on it. *)
Theorem left_handler_is_never_sent_again before st trace st' ws :
  run initial before = Some st →
  has_left st ws = true →
  run st trace = Some st' →
  has_left st' ws = true ∧
  (ws ∉ connected_clients st') ∧
  sends_to ws (new_sends st st') = [].
Proof.
  intros Hbefore%reachable_consistent. clear before.
  revert st Hbefore. induction trace as [|ev trace IH]; intros st Hst Hleft Hrun;
    simpl in Hrun.
  - injection Hrun as <-. split; [done|].
    unfold new_sends. rewrite drop_all. split; [|done].
    rewrite (registered_live _ Hst). unfold is_live, has_left in *.
    destruct (tasks st !! ws) as [p|]; [by destruct (suspended p)|done].
  - destruct (step st ev) as [st1|] eqn:Hstep; [|discriminate].
    assert (ws ≠ subject ev) as Hne.
    { intros ->. apply step_subject_not_left in Hstep. congruence. }
    assert (has_left st1 ws = true) as Hleft1.
    { unfold has_left in *.
      by destruct (step_others _ _ _ Hstep ws Hne) as [-> _]. }
    destruct (IH st1 (consistent_step _ _ _ Hst Hstep) Hleft1 Hrun)
      as (Hend & Hout & Hnone).
    split; [done|]. split; [done|].
    rewrite (new_sends_cons _ _ _ _ _ Hstep Hrun), sends_to_app, Hnone, app_nil_r.
    assert (ws ∉ connected_clients st) as Hunreg.
    { rewrite (registered_live _ Hst). unfold is_live, has_left in *.
      destruct (tasks st !! ws) as [p|]; [by destruct (suspended p)|done]. }
    destruct ev as [ws0 out|ws0 message timestamp outs|ws0|ws0 e|ws0];
      unfold step_sends; try done.
    + rewrite sends_to_joining. by rewrite decide_False by (simpl in Hne; done).
    + destruct (appended _); [|done].
      by apply sends_to_live_sends_absent.
Qed.

Lemma left_handler_is_never_sent_again_witness :
  ∃ st st',
    run initial [Accept 1 Delivered; Accept 2 Delivered; Close 2 None] = Some st ∧
    run st (Scenario.says 1 3) = Some st' ∧
    has_left st' 2 = true ∧ sends_to 2 (new_sends st st') = [].
Proof.
  eexists _, _.
  split; [vm_compute; reflexivity|]. split; [vm_compute; reflexivity|].
  destruct (left_handler_is_never_sent_again
              [Accept 1 Delivered; Accept 2 Delivered; Close 2 None] _
              (Scenario.says 1 3) _ 2
              ltac:(vm_compute; reflexivity) ltac:(vm_compute; reflexivity)
              ltac:(vm_compute; reflexivity)) as (Hleft & _ & Hnone).
  split; [exact Hleft|exact Hnone].
Defined.

(** ** Exceptions stay inside the handler *)

Section Containment.

Implicit Types (st : server) (ws : handle) (ev : event) (e : exn) (p : pc).

(** How a handler whose handle is registered leaves. *)
Lemma leave_pc ws pending st :
  ws ∈ connected_clients st →
  tasks (leave ws pending st) !! ws
  = Some match pending with
         | Some e => if is_Exception e then Returned else Failed e
         | None => Returned
         end.
Proof.
  intros Hin. unfold leave, set_remove.
  destruct pending as [e|]; [destruct (is_Exception e)|]; simpl;
    rewrite decide_True by done; simpl; by rewrite lookup_insert_eq.
Qed.

Lemma inner_except_pc ws e st :
  is_Exception e = true →
  tasks (inner_except ws e st) = tasks st.
Proof. intros He. by destruct (inner_except_caught ws e st He). Qed.

(** Where a step leaves the handler it runs. *)
Lemma step_pc st ev st' :
  consistent st → all_contained st → step st ev = Some st' →
  ∃ p, tasks st' !! subject ev = Some p ∧ contained p = true ∧
       (cancels ev = false → ∀ e, p ≠ Failed e).
Proof.
  intros Hst Hall Hstep%step_cases.
  assert (∀ ws p, tasks st !! ws = Some p → suspended p = true →
                  ws ∈ connected_clients st) as Hin.
  { intros ws p Hp Hsus. apply (registered_live _ Hst).
    unfold is_live. by rewrite Hp. }
  destruct ev as [ws out|ws message timestamp outs|ws|ws e|ws]; simpl.
  - destruct Hstep as [_ ->]. unfold accept. simpl.
    destruct (chat_history st); simpl.
    { rewrite lookup_insert_eq. eauto. }
    destruct (json_dumps _) as [history_json|e] eqn:Hdumps.
    + destruct out; simpl; try (rewrite lookup_insert_eq; eauto).
      rewrite leave_pc by (simpl; set_solver). simpl. eauto.
    + apply json_dumps_raises in Hdumps as ->.
      rewrite leave_pc by (simpl; set_solver). simpl. eauto.
  - destruct Hstep as [Hpc ->]. unfold on_message, broadcast.
    destruct (parse message timestamp) as [[obj|d]|e] eqn:Hparse; simpl.
    + destruct (json_dumps _) as [message_json|e] eqn:Hdumps.
      * simpl. case_match; simpl; [eauto|].
        rewrite lookup_insert_eq. eexists. split; [done|]. split; [|done].
        simpl. destruct (gather _) as [e|] eqn:Hgather; [|done].
        by apply gather_caught in Hgather.
      * apply json_dumps_raises in Hdumps as ->. simpl. eauto.
    + eauto.
    + rewrite inner_except_pc by (by apply parse_raises in Hparse). eauto.
  - destruct Hstep as (p & Hpc & Hresume). pose proof (Hall _ _ Hpc) as Hp.
    destruct p as [[e|]| |[e|]| |]; simpl in Hresume, Hp; try discriminate;
      injection Hresume as <-.
    + rewrite leave_pc by eauto. rewrite Hp. eauto.
    + simpl. rewrite lookup_insert_eq. eauto.
    + rewrite inner_except_pc by done. simpl. rewrite lookup_insert_eq. eauto.
    + simpl. rewrite lookup_insert_eq. eauto.
  - destruct Hstep as [Hpc ->]. rewrite leave_pc by eauto.
    destruct e as [[]|]; simpl; eauto; eexists; (split; [done|]); done.
  - destruct Hstep as (p & Hpc & Hsus & ->). rewrite leave_pc by eauto.
    simpl. eexists. split; [done|]. done.
Qed.

Lemma step_contained st ev st' :
  consistent st → all_contained st → step st ev = Some st' → all_contained st'.
Proof.
  intros Hst Hall Hstep ws p Hp.
  destruct (decide (ws = subject ev)) as [->|Hne].
  - destruct (step_pc _ _ _ Hst Hall Hstep) as (p' & Hp' & Hok & _). congruence.
  - destruct (step_others _ _ _ Hstep ws Hne) as [Hsame _].
    rewrite Hsame in Hp. by apply (Hall ws).
Qed.

Lemma run_contained trace : ∀ st st',
  consistent st → all_contained st → run st trace = Some st' → all_contained st'.
Proof.
  induction trace as [|ev trace IH]; simpl; intros st st' Hst Hall Hrun.
  - by injection Hrun as <-.
  - destruct (step st ev) as [st1|] eqn:Hstep; [|discriminate].
    eauto using consistent_step, step_contained.
Qed.

Lemma run_none_failed trace : ∀ st st',
  consistent st → all_contained st →
  (∀ ws e, tasks st !! ws ≠ Some (Failed e)) →
  forallb (fun ev => negb (cancels ev)) trace = true →
  run st trace = Some st' →
  ∀ ws e, tasks st' !! ws ≠ Some (Failed e).
Proof.
  induction trace as [|ev trace IH]; simpl; intros st st' Hst Hall Hnone Hquiet Hrun.
  - by injection Hrun as <-.
  - destruct (step st ev) as [st1|] eqn:Hstep; [|discriminate].
    apply andb_true_iff in Hquiet as [Hev%negb_true_iff Hquiet].
    apply (IH st1); eauto using consistent_step, step_contained.
    intros ws e Hfailed.
    destruct (decide (ws = subject ev)) as [->|Hne].
    + destruct (step_pc _ _ _ Hst Hall Hstep) as (p & Hp & _ & Hnot).
      apply (Hnot Hev e). congruence.
    + destruct (step_others _ _ _ Hstep ws Hne) as [Hsame _].
      rewrite Hsame in Hfailed. by apply (Hnone ws e).
Qed.

Lemma initial_contained : all_contained initial.
Proof. intros ws p. simpl. by rewrite lookup_empty. Qed.

End Containment.

(** X6.  No handler ends with an exception that derives from [Exception]:
    those raised while a frame is processed are caught at lines 120-123,
    those of the history send and of the receive loop at line 124.  A
    handler that ended with an exception was cancelled, and in a run
    without cancellation every handler that ended has returned. *)
Theorem handler_ends_only_by_return_or_cancellation trace st :
  run initial trace = Some st →
  (∀ ws e, tasks st !! ws = Some (Failed e) → e = CancelledError) ∧
  (forallb (fun ev => negb (cancels ev)) trace = true →
   ∀ ws, has_left st ws = true → tasks st !! ws = Some Returned).
Proof.
  intros Hrun. split.
  - intros ws e Hfailed.
    pose proof (run_contained trace initial st initial_consistent
                  initial_contained Hrun ws _ Hfailed) as Hok.
    by destruct e.
  - intros Hquiet ws Hleft.
    assert (∀ ws' e', tasks initial !! ws' ≠ Some (Failed e')) as Hfresh.
    { intros ws' e'. simpl. by rewrite lookup_empty. }
    pose proof (run_none_failed trace initial st initial_consistent
                  initial_contained Hfresh Hquiet Hrun ws) as Hnone.
    unfold has_left in Hleft.
    destruct (tasks st !! ws) as [p|] eqn:Hp; [|discriminate].
    destruct p as [r| |r| |e]; try discriminate; [done|].
    by destruct (Hnone e).
Qed.

Lemma handler_ends_only_by_return_or_cancellation_witness :
  ∃ st,
    run initial (Scenario.one_client 1 ++
                 [Accept 2 RaisesOnAwait; Resume 2;
                  Receive 1 NotJSON "12:00" Scenario.all_delivered;
                  Close 1 (Some ConnectionClosed)]) = Some st ∧
    tasks st !! 1 = Some Returned ∧ tasks st !! 2 = Some Returned.
Proof.
  eexists. split; [vm_compute; reflexivity|].
  destruct (handler_ends_only_by_return_or_cancellation
              (Scenario.one_client 1 ++
               [Accept 2 RaisesOnAwait; Resume 2;
                Receive 1 NotJSON "12:00" Scenario.all_delivered;
                Close 1 (Some ConnectionClosed)]) _
              ltac:(vm_compute; reflexivity)) as [_ Hreturned].
  split; apply Hreturned; reflexivity.
Defined.

(** ** What the log says about a frame *)

Section Logging.

Implicit Types (st : server) (ws : handle) (message : frame) (data : json).




End Logging.



(** ** A history that cannot be sent *)

(** X8.  When the history cannot be sent to a joining client, because
    [json.dumps] does not encode it or because the send fails, that
    connection ends and nothing else happens: its handler logs the
    exception from line 125 and returns, at once if [json.dumps] or the
    call of [send] raised and when it is resumed if the awaitable did;
    its websocket is not registered afterwards; the history is as it was
    and so is the registration of everybody else.  When it is
    [json.dumps] that raised, nothing was sent. *)
Theorem failed_history_send_ends_the_connection before st ws out st1 :
  let history_json := history_payload (chat_history st) in
  run initial before = Some st →
  chat_history st ≠ [] →
  json_dumps history_json ≠ Ok history_json ∨ out ≠ Delivered →
  step st (Accept ws out) = Some st1 →
  ∃ st2 e,
    ((json_dumps history_json ≠ Ok history_json ∧ e = RecursionError ∧
      st2 = st1 ∧ wire st2 = wire st) ∨
     (json_dumps history_json = Ok history_json ∧ e = ConnectionClosed ∧
      out = RaisesOnCall ∧ st2 = st1) ∨
     (json_dumps history_json = Ok history_json ∧ e = ConnectionClosed ∧
      out = RaisesOnAwait ∧ ws ∈ connected_clients st1 ∧
      step st1 (Resume ws) = Some st2)) ∧
    tasks st2 !! ws = Some Returned ∧
    (ws ∉ connected_clients st2) ∧
    log st2 = log st ++ [ErrorUnexpected e] ∧
    chat_history st2 = chat_history st ∧
    ∀ ws', ws' ≠ ws → (ws' ∈ connected_clients st2 ↔ ws' ∈ connected_clients st).
Proof.
  intros history_json Hst%reachable_consistent Hhistory Hfails
    [Hnew ->]%step_cases.
  assert (ws ∉ connected_clients st) as Hfresh.
  { rewrite (registered_live _ Hst). unfold is_live. by rewrite Hnew. }
  unfold history_json in *. clear history_json.
  unfold accept. simpl.
  destruct (chat_history st) as [|m h] eqn:Hh; [done|].
  destruct (json_dumps _) as [encoded|e] eqn:Hdumps.
  - pose proof (json_dumps_ok _ _ Hdumps) as ->.
    destruct Hfails as [Hfails|Hout]; [done|].
    destruct out; [done| |].
    + eexists _, _. split; [right; left; done|].
      unfold leave, set_remove. simpl.
      rewrite decide_True by set_solver. simpl. rewrite lookup_insert_eq.
      repeat split; try done; set_solver.
    + exists (leave ws (Some ConnectionClosed)
                (set_pc ws (AwaitHistorySend (Some ConnectionClosed))
                   (sending [Sent ws (history_payload (m :: h)) RaisesOnAwait]
                      (Server ({[ws]} ∪ connected_clients st) (m :: h)
                              (tasks st) (wire st) (log st))))),
             ConnectionClosed.
      split.
      { right. right. do 3 (split; [done|]). split; [simpl; set_solver|].
        simpl. by rewrite lookup_insert_eq. }
      unfold leave, set_remove. simpl.
      rewrite decide_True by set_solver. simpl. rewrite lookup_insert_eq.
      repeat split; try done; set_solver.
  - apply json_dumps_raises in Hdumps as ->.
    eexists _, _. split.
    { left. split; [discriminate|]. split; [done|]. split; [done|].
      by rewrite leave_wire. }
    unfold leave, set_remove. simpl.
    rewrite decide_True by set_solver. simpl. rewrite lookup_insert_eq.
    repeat split; try done; set_solver.
Qed.

Lemma failed_history_send_ends_the_connection_witness :
  ∃ st st1,
    run initial [Accept 1 Delivered;
                 Receive 1 (Decodes (Scenario.deep 992)) "12:00" Scenario.all_delivered;
                 Resume 1] = Some st ∧
    step st (Accept 2 Delivered) = Some st1 ∧
    tasks st1 !! 2 = Some Returned ∧
    wire st1 = wire st ∧
    (1 ∈ connected_clients st1 ↔ 1 ∈ connected_clients st).
Proof.
  eexists _, _.
  split; [vm_compute; reflexivity|].
  split; [vm_compute; reflexivity|].
  destruct (failed_history_send_ends_the_connection
              [Accept 1 Delivered;
               Receive 1 (Decodes (Scenario.deep 992)) "12:00" Scenario.all_delivered;
               Resume 1] _ 2 Delivered _
              ltac:(vm_compute; reflexivity) ltac:(vm_compute; discriminate)
              ltac:(left; vm_compute; discriminate)
              ltac:(vm_compute; reflexivity))
    as (st2 & e & [(_ & _ & Heq & Hwire)|[(Hok & _)|(Hok & _)]]
        & Hpc & _ & _ & _ & Hothers).
  - subst st2. split; [exact Hpc|]. split; [exact Hwire|]. apply Hothers. lia.
  - exfalso. vm_compute in Hok. discriminate.
  - exfalso. vm_compute in Hok. discriminate.
Defined.

(** ** Shutdown *)

Section Shutdown.

Import Lifecycle.

Lemma call_closes_prefix clients closes :
  fst (call_closes clients closes) `prefix_of` clients.
Proof.
  induction clients as [|c clients IH]; simpl; [done|].
  destruct (closes c); simpl.
  - destruct (call_closes clients closes) as [calls r]. simpl in *.
    by apply prefix_cons.
  - apply prefix_cons, prefix_nil.
  - destruct (call_closes clients closes) as [calls r]. simpl in *.
    by apply prefix_cons.
Qed.

Lemma call_closes_all clients closes :
  (∀ client e, client ∈ clients → closes client ≠ CloseRaisesOnCall e) →
  call_closes clients closes = (clients, None).
Proof.
  induction clients as [|c clients IH]; intros Hok; simpl; [done|].
  rewrite IH by (intros client e Hin; apply Hok; by right).
  destruct (closes c) as [|e|e] eqn:Hc; try done.
  exfalso. apply (Hok c e); [by left|done].
Qed.

Lemma call_closes_raised clients closes calls e :
  call_closes clients closes = (calls, Some e) →
  ∃ client, last calls = Some client ∧ closes client = CloseRaisesOnCall e.
Proof.
  revert calls. induction clients as [|c clients IH]; intros calls; simpl;
    [discriminate|].
  destruct (closes c) as [|e'|e'] eqn:Hc.
  - destruct (call_closes clients closes) as [calls' r]. intros [= <- ->].
    destruct (IH calls' eq_refl) as (client & Hlast & Hclient).
    exists client. split; [|done]. destruct calls'; [discriminate|done].
  - intros [= <- <-]. eauto.
  - destruct (call_closes clients closes) as [calls' r]. intros [= <- ->].
    destruct (IH calls' eq_refl) as (client & Hlast & Hclient).
    exists client. split; [|done]. destruct calls'; [discriminate|done].
Qed.

End Shutdown.

(** X9.  In a reachable state [shutdown] calls [close] at most once on a
    websocket and only on websockets whose handler is still running.  If
    no call of [close] raises, it calls it on every one of them, on none
    when nobody is connected; an exception of an awaitable is collected by
    [gather] among the results, one per call and in the order of the
    calls, and line 167 stops the loop.  If a call of [close] raises, it
    is the last call made: the exception leaves [shutdown] and the loop is
    not stopped. *)
Theorem shutdown_closes_the_live_connections trace st closes :
  run initial trace = Some st →
  NoDup (Lifecycle.close_calls (Lifecycle.shutdown st closes)) ∧
  (∀ ws, ws ∈ Lifecycle.close_calls (Lifecycle.shutdown st closes) →
         is_live st ws = true) ∧
  ((∀ ws e, is_live st ws = true → closes ws ≠ Lifecycle.CloseRaisesOnCall e) →
   (∀ ws, is_live st ws = true →
          ws ∈ Lifecycle.close_calls (Lifecycle.shutdown st closes)) ∧
   Lifecycle.gathered (Lifecycle.shutdown st closes)
   = closes <$> Lifecycle.close_calls (Lifecycle.shutdown st closes) ∧
   Lifecycle.raised (Lifecycle.shutdown st closes) = None ∧
   Lifecycle.loop_stopped (Lifecycle.shutdown st closes) = true) ∧
  (∀ e, Lifecycle.raised (Lifecycle.shutdown st closes) = Some e →
        Lifecycle.loop_stopped (Lifecycle.shutdown st closes) = false ∧
        ∃ ws, last (Lifecycle.close_calls (Lifecycle.shutdown st closes)) = Some ws ∧
              closes ws = Lifecycle.CloseRaisesOnCall e).
Proof.
  intros Hst%reachable_consistent.
  pose proof (registered_live _ Hst) as Hreg.
  pose proof (call_closes_prefix (elements (connected_clients st)) closes)
    as Hprefix.
  unfold Lifecycle.shutdown. case_decide as Hempty.
  { simpl. split; [constructor|]. split; [by intros ws Hws%not_elem_of_nil|].
    split; [|done]. intros _. split; [|done].
    intros ws Hlive%Hreg. rewrite Hempty in Hlive. set_solver. }
  destruct (Lifecycle.call_closes _ closes) as [calls r] eqn:Hcalls.
  simpl in Hprefix.
  assert (NoDup calls ∧ ∀ ws, ws ∈ calls → is_live st ws = true) as [Hnodup Hlive].
  { destruct Hprefix as [rest Hrest]. split.
    - pose proof (NoDup_elements (connected_clients st)) as Hnd.
      rewrite Hrest in Hnd. by apply NoDup_app in Hnd as [Hnd _].
    - intros ws Hin. apply Hreg, elem_of_elements. rewrite Hrest.
      apply elem_of_app. by left. }
  assert ((∀ ws e, is_live st ws = true → closes ws ≠ Lifecycle.CloseRaisesOnCall e) →
          calls = elements (connected_clients st) ∧ r = None) as Hall.
  { intros Hok. rewrite call_closes_all in Hcalls.
    - by injection Hcalls as <- <-.
    - intros client e Hin. apply Hok, Hreg. by apply elem_of_elements. }
  destruct r as [e|]; simpl.
  - split; [done|]. split; [done|]. split.
    + intros Hok. by destruct (Hall Hok).
    + intros e' [= <-]. split; [done|]. by apply (call_closes_raised _ _ _ _ Hcalls).
  - split; [done|]. split; [done|]. split; [|done].
    intros Hok. destruct (Hall Hok) as [-> _]. split; [|done].
    intros ws Hws. by apply elem_of_elements, Hreg.
Qed.

Lemma shutdown_closes_the_live_connections_witness :
  let closes := fun ws : handle =>
    if decide (ws = 3) then Lifecycle.CloseRaisesOnAwait ConnectionClosed
    else Lifecycle.CloseReturns in
  ∃ st,
    run initial [Accept 1 Delivered; Accept 2 Delivered; Accept 3 Delivered;
                 Close 2 None] = Some st ∧
    is_live st 1 = true ∧ is_live st 2 = false ∧ is_live st 3 = true ∧
    (3 ∈ Lifecycle.close_calls (Lifecycle.shutdown st closes)) ∧
    length (Lifecycle.gathered (Lifecycle.shutdown st closes)) = 2 ∧
    Lifecycle.loop_stopped (Lifecycle.shutdown st closes) = true.
Proof.
  intros closes. eexists. split; [vm_compute; reflexivity|].
  destruct (shutdown_closes_the_live_connections
              [Accept 1 Delivered; Accept 2 Delivered; Accept 3 Delivered;
               Close 2 None] _ closes ltac:(vm_compute; reflexivity))
    as (_ & _ & Hall & _).
  destruct Hall as (Hcalls & _ & _ & Hstopped).
  - intros ws e _. unfold closes. case_decide; discriminate.
  - split; [reflexivity|]. split; [reflexivity|]. split; [reflexivity|].
    split; [apply Hcalls; reflexivity|]. split; [reflexivity|exact Hstopped].
Defined.
